(** * outreach100back: the scraping pipeline of server.js

    A shallow embedding of the three stages of the church-data backend
    (page loop [scrapeYearData], extractor [parseChurchesFromHTML],
    consolidator [consolidateChurchData]) and of the two request handlers
    the specification talks about, followed by the properties the
    specification states about them. *)

From Stdlib Require Import List ZArith String Ascii Bool Lia Arith.
From Stdlib Require Import Sorted Permutation DecimalString.
From Stdlib Require DecimalZ DecimalPos.
Import ListNotations.

Local Open Scope Z_scope.

(* ================================================================== *)
(** * JavaScript library models *)
(* ================================================================== *)

(** ** Array.prototype.sort

    The sort is stable (ECMAScript 2019).  For a consistent comparator the
    result is the one stable ordering of the array; the model computes it by
    inserting every element in front of the already sorted elements that
    followed it: the element moves right only past elements it is strictly
    greater than ([cmp x y > 0]). *)

Section ArraySort.
Context {A : Type}.
Variable cmp : A -> A -> Z.

Fixpoint sort_insert (x : A) (l : list A) : list A :=
  match l with
  | [] => [x]
  | y :: l' => if 0 <? cmp x y then y :: sort_insert x l' else x :: l
  end.

Definition Array_sort (l : list A) : list A := fold_right sort_insert [] l.
End ArraySort.

(** ** Map

    A [Map] iterates in insertion order, and [set] on a key that is present
    keeps the key's position: an association list with in-place update. *)

Definition JsMap (V : Type) : Type := list (string * V).

Section JsMapOps.
Context {V : Type}.

Fixpoint Map_get (m : JsMap V) (k : string) : option V :=
  match m with
  | [] => None
  | (k', v) :: m' => if String.eqb k' k then Some v else Map_get m' k
  end.

Definition Map_has (m : JsMap V) (k : string) : bool :=
  match Map_get m k with Some _ => true | None => false end.

Fixpoint Map_set (m : JsMap V) (k : string) (v : V) : JsMap V :=
  match m with
  | [] => [(k, v)]
  | (k', v') :: m' =>
      if String.eqb k' k then (k, v) :: m' else (k', v') :: Map_set m' k v
  end.

Definition Map_values (m : JsMap V) : list V := map snd m.
End JsMapOps.

(* ================================================================== *)
(** * Data model *)
(* ================================================================== *)

(** The object pushed by the extractor: [{name, location, pastor,
    attendance, ranking}]; [attendance] is a number or [null]. *)
Record church : Type := mkChurch {
  name : string;
  location : string;
  pastor : string;
  attendance : option Z;
  ranking : Z
}.

(** One element of an entity's [data] array: [{year, attendance, ranking}]. *)
Record point : Type := mkPoint {
  year : Z;
  p_attendance : option Z;
  p_ranking : Z
}.

(** A value of [churchMap]: [{name, location, pastor, data}]. *)
Record entity : Type := mkEntity {
  e_name : string;
  e_location : string;
  e_pastor : string;
  data : list point
}.

Definition set_data (e : entity) (d : list point) : entity :=
  mkEntity (e_name e) (e_location e) (e_pastor e) d.

(** [yearlyData] as [Object.entries] enumerates it: the property keys are
    the decimal strings of the years and [parseInt] gives the year back, so
    an entry is kept as the year with that year's array.  An object has
    every key once ([NoDup] of the years), which the definitions do not
    rely on. *)
Definition yearlyData : Type := list (Z * list church).

(** [a.data[a.data.length - 1]]: [undefined] on an empty array. *)
Definition latest (d : list point) : option point :=
  match d with
  | [] => None
  | _ :: _ => nth_error d (List.length d - 1)%nat
  end.

(** The sort key of the last comparator, [aLatest.ranking].  Reading
    [ranking] of [undefined] throws; the filter before the sort keeps
    arrays of three or more elements only (lemma
    [consolidate_latest_defined]), so the second branch is never taken. *)
Definition latestRanking (e : entity) : Z :=
  match latest (data e) with
  | Some p => p_ranking p
  | None => 0
  end.

Definition byYear (a b : point) : Z := year a - year b.
Definition byLatestRanking (a b : entity) : Z := latestRanking a - latestRanking b.

(** src/server.js, lines 332-365. *)
Module ServerJs.

(** The body of [churches.forEach]: create the entity at the first
    record of a name, then push the point on the stored [data] array. *)
Definition addChurch (yr : Z) (churchMap : JsMap entity) (c : church)
  : JsMap entity :=
  let churchMap1 :=
    if negb (Map_has churchMap (name c))
    then Map_set churchMap (name c)
           (mkEntity (name c) (location c) (pastor c) [])
    else churchMap in
  match Map_get churchMap1 (name c) with
  | Some e =>
      Map_set churchMap1 (name c)
        (set_data e (data e ++ [mkPoint yr (attendance c) (ranking c)]))
  | None => churchMap1
  end.

Definition collect (yd : yearlyData) : JsMap entity :=
  fold_left (fun m (entry : Z * list church) =>
               fold_left (addChurch (fst entry)) (snd entry) m)
            yd [].

Definition consolidateChurchData (yd : yearlyData) : list entity :=
  Array_sort byLatestRanking
    (map (fun e => set_data e (Array_sort byYear (data e)))
       (filter (fun e => (3 <=? List.length (data e))%nat)
          (Map_values (collect yd)))).

End ServerJs.

(** src/unnamed/part_000, lines 481-514. *)
Module Part000.

Definition addChurch (yr : Z) (churchMap : JsMap entity) (c : church)
  : JsMap entity :=
  let churchMap1 :=
    if negb (Map_has churchMap (name c))
    then Map_set churchMap (name c)
           (mkEntity (name c) (location c) (pastor c) [])
    else churchMap in
  match Map_get churchMap1 (name c) with
  | Some e =>
      Map_set churchMap1 (name c)
        (set_data e (data e ++ [mkPoint yr (attendance c) (ranking c)]))
  | None => churchMap1
  end.

Definition collect (yd : yearlyData) : JsMap entity :=
  fold_left (fun m (entry : Z * list church) =>
               fold_left (addChurch (fst entry)) (snd entry) m)
            yd [].

Definition consolidateChurchData (yd : yearlyData) : list entity :=
  Array_sort byLatestRanking
    (map (fun e => set_data e (Array_sort byYear (data e)))
       (filter (fun e => (3 <=? List.length (data e))%nat)
          (Map_values (collect yd)))).

End Part000.

(* ================================================================== *)
(** * Strings, numbers and the three regular expressions *)
(* ================================================================== *)

(** A JavaScript number as the code meets it: an integer or [NaN]. *)
Inductive jsnumber : Type :=
| NaN
| Num (z : Z).

(** Characters are the code units below 256. *)
Definition code (c : ascii) : nat := nat_of_ascii c.

Definition between (lo hi : nat) (c : ascii) : bool :=
  ((lo <=? code c) && (code c <=? hi))%nat.

(** [\d], [\w] and [\s] (the white space and line terminators below 256). *)
Definition isDigit (c : ascii) : bool := between 48 57 c.
Definition isUpper (c : ascii) : bool := between 65 90 c.
Definition isLower (c : ascii) : bool := between 97 122 c.
Definition isWord (c : ascii) : bool :=
  isDigit c || isUpper c || isLower c || (code c =? 95)%nat.
Definition isSpace (c : ascii) : bool :=
  between 9 13 c || (code c =? 32)%nat || (code c =? 160)%nat.

Definition isEmpty (s : string) : bool :=
  match s with EmptyString => true | String _ _ => false end.

Fixpoint trimStart (s : string) : string :=
  match s with
  | EmptyString => EmptyString
  | String c s' => if isSpace c then trimStart s' else s
  end.

Fixpoint trimEnd (s : string) : string :=
  match s with
  | EmptyString => EmptyString
  | String c s' =>
      let r := trimEnd s' in
      if isSpace c && isEmpty r then EmptyString else String c r
  end.

(** [String.prototype.trim]. *)
Definition trim (s : string) : string := trimEnd (trimStart s).

Fixpoint allChars (p : ascii -> bool) (s : string) : bool :=
  match s with
  | EmptyString => true
  | String c s' => p c && allChars p s'
  end.

Fixpoint includes (c : ascii) (s : string) : bool :=
  match s with
  | EmptyString => false
  | String c' s' => Ascii.eqb c' c || includes c s'
  end.

(** [parseInt(s)]: leading white space, a sign, a [0x] prefix, then the
    longest run of digits of the radix; [NaN] when that run is empty. *)
Definition digitOf (radix : Z) (c : ascii) : option Z :=
  let d :=
    if isDigit c then Z.of_nat (code c) - 48
    else if between 97 102 c then Z.of_nat (code c) - 87
    else if between 65 70 c then Z.of_nat (code c) - 55
    else radix in
  if d <? radix then Some d else None.

Fixpoint digitsValue (radix acc : Z) (seen : bool) (s : string) : jsnumber :=
  match s with
  | EmptyString => if seen then Num acc else NaN
  | String c s' =>
      match digitOf radix c with
      | Some d => digitsValue radix (acc * radix + d) true s'
      | None => if seen then Num acc else NaN
      end
  end.

Definition unsignedValue (s : string) : jsnumber :=
  match s with
  | String c0 (String c1 s') =>
      if Ascii.eqb c0 "0" && (Ascii.eqb c1 "x" || Ascii.eqb c1 "X")
      then digitsValue 16 0 false s'
      else digitsValue 10 0 false s
  | _ => digitsValue 10 0 false s
  end.

Definition negate (n : jsnumber) : jsnumber :=
  match n with NaN => NaN | Num z => Num (- z) end.

Definition parseInt (s : string) : jsnumber :=
  match trimStart s with
  | EmptyString => NaN
  | String c s' =>
      if Ascii.eqb c "-" then negate (unsignedValue s')
      else if Ascii.eqb c "+" then unsignedValue s'
      else unsignedValue (String c s')
  end.

(** [n <= k], [n >= k]: false on [NaN]. *)
Definition num_le (n : jsnumber) (k : Z) : bool :=
  match n with NaN => false | Num z => z <=? k end.
Definition num_ge (n : jsnumber) (k : Z) : bool :=
  match n with NaN => false | Num z => k <=? z end.
Definition num_lt (n : jsnumber) (k : Z) : bool :=
  match n with NaN => false | Num z => z <? k end.
Definition num_gt (n : jsnumber) (k : Z) : bool :=
  match n with NaN => false | Num z => k <? z end.

(** [text.match(/^\d+$/)]: the whole text, when it is one or more digits. *)
Definition matchAllDigits (text : string) : option string :=
  if negb (isEmpty text) && allChars isDigit text then Some text else None.

(** [\b] between the character before a position and the one after it. *)
Definition isWordAt (c : option ascii) : bool :=
  match c with Some a => isWord a | None => false end.

Definition wordBoundary (before after : option ascii) : bool :=
  xorb (isWordAt before) (isWordAt after).

Definition firstChar (s : string) : option ascii :=
  match s with EmptyString => None | String c _ => Some c end.

(** Exactly [k] digits at the start of [s]: the digits and the rest. *)
Fixpoint takeDigits (k : nat) (s : string) : option (string * string) :=
  match k with
  | O => Some (EmptyString, s)
  | S k' =>
      match s with
      | String c s' =>
          if isDigit c
          then match takeDigits k' s' with
               | Some (d, rest) => Some (String c d, rest)
               | None => None
               end
          else None
      | EmptyString => None
      end
  end.

(** [\d{k}\b] at the start of [s], [k] at least 1 (the character before the
    closing boundary is then a digit, a word character). *)
Definition digitsThenBoundary (k : nat) (s : string) : option string :=
  match takeDigits k s with
  | Some (d, rest) =>
      if wordBoundary (Some "0"%char) (firstChar rest) then Some d else None
  | None => None
  end.

(** [/\b(\d{3,6})\b/] anchored at the start of [s], [before] being the
    character in front of it; the quantifier is greedy, so the longer
    runs are tried first. *)
Definition matchHere (before : option ascii) (s : string) : option string :=
  if wordBoundary before (firstChar s) then
    match digitsThenBoundary 6 s with
    | Some d => Some d
    | None =>
        match digitsThenBoundary 5 s with
        | Some d => Some d
        | None =>
            match digitsThenBoundary 4 s with
            | Some d => Some d
            | None => digitsThenBoundary 3 s
            end
        end
    end
  else None.

(** [text.match(/\b(\d{3,6})\b/)]: the leftmost position where the
    expression matches; the result is capture group 1. *)
Fixpoint searchFrom (before : option ascii) (s : string) : option string :=
  match matchHere before s with
  | Some d => Some d
  | None =>
      match s with
      | EmptyString => None
      | String c s' => searchFrom (Some c) s'
      end
  end.

Definition matchNumber (text : string) : option string := searchFrom None text.

(** [/^[A-Za-z\s]+,\s*[A-Z]{2,}$/.test(text)].  No character of the first
    class is a comma and no upper-case letter is white space, so both
    greedy runs end where they must. *)
Definition isCityChar (c : ascii) : bool := isUpper c || isLower c || isSpace c.

Fixpoint dropWhile (p : ascii -> bool) (s : string) : string :=
  match s with
  | EmptyString => EmptyString
  | String c s' => if p c then dropWhile p s' else s
  end.

Definition testLocation (text : string) : bool :=
  match text with
  | EmptyString => false
  | String c _ =>
      isCityChar c &&
      match dropWhile isCityChar text with
      | String "," rest =>
          let st := dropWhile isSpace rest in
          allChars isUpper st && (2 <=? String.length st)%nat
      | _ => false
      end
  end.

(** [parts[parts.length - 1]] of [text.split('-')]: what follows the last
    hyphen. *)
Fixpoint lastPart (s : string) : string :=
  match s with
  | EmptyString => EmptyString
  | String c s' =>
      if Ascii.eqb c "-" && negb (includes "-" s') then s'
      else if includes "-" s' then lastPart s' else s
  end.

(* ================================================================== *)
(** * The extractor: parseChurchesFromHTML *)
(* ================================================================== *)

(** What the cheerio selections of one matched anchor evaluate to; a page
    is the list of the anchors matched by [a[href*="/churches/"]], in
    document order.  The texts are as [.text()] returns them, before
    [trim]. *)
Record anchor : Type := mkAnchor {
  containerPrevText : string;       (* $container.prev().text() *)
  containerFirstText : string;      (* $container.find('*').first().text() *)
  linkPrevText : string;            (* $link.prev().text() *)
  linkText : string;                (* $link.text() *)
  headingText : string;             (* $container.find('h1, ..., h6').first().text() *)
  descendantTexts : list string     (* $(elem).text(), elem over $container.find('*') *)
}.

Definition html : Type := list anchor.

(** The [for (const text of rankingSelectors)] loop, [null] being [None]. *)
Fixpoint findRanking (selectors : list string) : option jsnumber :=
  match selectors with
  | [] => None
  | text :: rest =>
      match matchAllDigits text with
      | Some m =>
          if num_le (parseInt m) 100 then Some (parseInt m)
          else findRanking rest
      | None => findRanking rest
      end
  end.

(** [!ranking]: [null], [0] and [NaN] are falsy. *)
Definition notRanking (ranking : option jsnumber) : bool :=
  match ranking with
  | None => true
  | Some NaN => true
  | Some (Num z) => z =? 0
  end.

Definition rankingSelectors (a : anchor) : list string :=
  [trim (containerPrevText a); trim (containerFirstText a);
   trim (linkPrevText a)].

Definition extractRanking (index : nat) (a : anchor) : jsnumber :=
  let ranking := findRanking (rankingSelectors a) in
  if notRanking ranking then Num (Z.of_nat index + 1)
  else match ranking with Some r => r | None => NaN end.

Definition extractName (a : anchor) : string :=
  let churchName := trim (linkText a) in
  if isEmpty churchName then trim (headingText a) else churchName.

(** One round of the first [$container.find('*').each]: the state is the
    pair [(location, pastor)]. *)
Definition locationPastorStep (st : string * string) (elemText : string)
  : string * string :=
  let text := trim elemText in
  let location1 :=
    if testLocation text && (String.length text <? 50)%nat
    then text else fst st in
  let pastor1 :=
    if includes "-" text && (String.length text <? 100)%nat then
      let possiblePastor := trim (lastPart text) in
      if negb (isEmpty possiblePastor)
         && negb (includes "," possiblePastor)
         && (String.length possiblePastor <? 50)%nat
      then possiblePastor else snd st
    else snd st in
  (location1, pastor1).

(** [!attendance]: [null] and [0] are falsy. *)
Definition notAttendance (attendance : option Z) : bool :=
  match attendance with
  | None => true
  | Some z => z =? 0
  end.

(** One round of the second [$container.find('*').each]. *)
Definition attendanceStep (attendance : option Z) (elemText : string)
  : option Z :=
  let text := trim elemText in
  match matchNumber text with
  | Some m =>
      if notAttendance attendance then
        match parseInt m with
        | Num number =>
            if (1000 <=? number) && (number <=? 100000)
            then Some number else attendance
        | NaN => attendance
        end
      else attendance
  | None => attendance
  end.

Definition extractAttendance (texts : list string) : option Z :=
  fold_left attendanceStep texts None.

Definition orElse (s default : string) : string :=
  if isEmpty s then default else s.

(** The body of the [.each] callback: the record pushed for the anchor at
    [index], if any. *)
Definition parseAnchor (index : nat) (a : anchor) : option church :=
  let ranking := extractRanking index a in
  let churchName := extractName a in
  let lp := fold_left locationPastorStep (descendantTexts a)
              (EmptyString, EmptyString) in
  let attendance := extractAttendance (descendantTexts a) in
  match ranking with
  | Num r =>
      if negb (isEmpty churchName) && negb (r =? 0)
      then Some (mkChurch churchName
                   (orElse (fst lp) "Location not found")
                   (orElse (snd lp) "Pastor not found")
                   attendance r)
      else None
  | NaN => None
  end.

Fixpoint eachAnchor (index : nat) (anchors : list anchor) : list church :=
  match anchors with
  | [] => []
  | a :: rest =>
      match parseAnchor index a with
      | Some c => c :: eachAnchor (S index) rest
      | None => eachAnchor (S index) rest
      end
  end.

Definition byRanking (a b : church) : Z := ranking a - ranking b.

(** [yr] is the unused second parameter. *)
Definition parseChurchesFromHTML (page : html) (yr : jsnumber) : list church :=
  Array_sort byRanking (eachAnchor 0 page).

(** The numbers a text holds, as a reader of the specification counts
    them: every match of [/\b(\d{3,6})\b/] from left to right, the search
    resuming after each match.  [skip] characters are passed over first. *)
Fixpoint runsFrom (skip : nat) (before : option ascii) (s : string)
  : list string :=
  match s with
  | EmptyString => []
  | String c s' =>
      match skip with
      | S k => runsFrom k (Some c) s'
      | O =>
          match matchHere before s with
          | Some d => d :: runsFrom (String.length d - 1) (Some c) s'
          | None => runsFrom 0 (Some c) s'
          end
      end
  end.

Definition inAttendanceRange (n : jsnumber) : bool :=
  num_ge n 1000 && num_le n 100000.

Definition numberOf (n : jsnumber) : option Z :=
  match n with NaN => None | Num z => Some z end.

(** The attendance as the specification words it: the first number in
    [1000, 100000] among all 3-to-6-digit runs of all the texts. *)
Definition firstQualifyingRun (texts : list string) : option Z :=
  match find inAttendanceRange
          (map parseInt (flat_map (fun t => runsFrom 0 None (trim t)) texts))
  with
  | Some n => numberOf n
  | None => None
  end.

(** What one text contributes in the code: its first run, if in range. *)
Definition qualifying (elemText : string) : option Z :=
  match matchNumber (trim elemText) with
  | Some m =>
      if inAttendanceRange (parseInt m) then numberOf (parseInt m) else None
  | None => None
  end.

(* ================================================================== *)
(** * The page loop: scrapeYearData *)
(* ================================================================== *)

(** A thrown value: the [Error] built for a non-success status, or
    whatever a rejected promise carries. *)
Inductive error : Type :=
| HttpError (status : Z) (statusText : string)
| Rejection (message : string).

(** The listing URL of a year: page 1 has no [page] query parameter. *)
Record url : Type := mkUrl {
  urlYear : jsnumber;
  urlPage : option nat
}.

Definition listingUrl (yr : jsnumber) (page : nat) : url :=
  if (page =? 1)%nat then mkUrl yr None else mkUrl yr (Some page).

(** What [fetch] resolves to; [text] is the outcome of
    [response.text()], the markup being given as the anchors cheerio
    finds in it. *)
Record response : Type := mkResponse {
  ok : bool;
  status : Z;
  statusText : string;
  text : error + html
}.

Inductive completion : Type :=
| Return (churches : list church)
| Throw (e : error)
| Unfinished.

Record loopState : Type := mkLoop {
  churches : list church;
  page : nat;
  hasMorePages : bool;
  requests : list url
}.

Section Scraper.
(** The network: what [await fetch(url, ...)] gives, [inl] when the
    promise rejects. *)
Variable fetch : url -> error + response.

(** The [catch] block of the loop body. *)
Definition caught (st : loopState) (reqs : list url) (e : error)
  : completion * list url :=
  if (page st =? 1)%nat then (Throw e, reqs)
  else (Return (churches st), reqs).

(** [while (hasMorePages && page <= 10)], one unit of [fuel] for every
    evaluation of the condition; [requests] logs the URLs fetched. *)
Fixpoint whileLoop (fuel : nat) (yr : jsnumber) (st : loopState)
  : completion * list url :=
  match fuel with
  | O => (Unfinished, requests st)
  | S fuel' =>
      if hasMorePages st && (page st <=? 10)%nat then
        let reqs := requests st ++ [listingUrl yr (page st)] in
        match fetch (listingUrl yr (page st)) with
        | inl e => caught st reqs e
        | inr r =>
            if negb (ok r) then
              if (page st =? 1)%nat
              then caught st reqs (HttpError (status r) (statusText r))
              else (Return (churches st), reqs)
            else
              match text r with
              | inl e => caught st reqs e
              | inr markup =>
                  let pageChurches := parseChurchesFromHTML markup yr in
                  if (List.length pageChurches =? 0)%nat
                  then whileLoop fuel' yr
                         (mkLoop (churches st) (page st) false reqs)
                  else whileLoop fuel' yr
                         (mkLoop (churches st ++ pageChurches)
                            (S (page st)) (hasMorePages st) reqs)
              end
        end
      else (Return (churches st), requests st)
  end.

(** Ten pages and the last test of the condition: eleven evaluations. *)
Definition scrapeFuel : nat := 11.

Definition scrapeYearData (yr : jsnumber) : completion * list url :=
  whileLoop scrapeFuel yr (mkLoop [] 1 true []).

(** The records of page [p], when the page is fetched with a success
    status and its body can be read. *)
Definition pageChurchesOf (yr : jsnumber) (p : nat) : option (list church) :=
  match fetch (listingUrl yr p) with
  | inr r =>
      if ok r then
        match text r with
        | inr markup => Some (parseChurchesFromHTML markup yr)
        | inl _ => None
        end
      else None
  | inl _ => None
  end.

(** A page with at least one record. *)
Definition fullPage (yr : jsnumber) (p : nat) : Prop :=
  exists cs, pageChurchesOf yr p = Some cs /\ cs <> [].

(** A page with a success status and no record. *)
Definition emptyPage (yr : jsnumber) (p : nat) : Prop :=
  pageChurchesOf yr p = Some [].

(** A page answered with a non-success status. *)
Definition notOkPage (yr : jsnumber) (p : nat) : Prop :=
  exists r, fetch (listingUrl yr p) = inr r /\ ok r = false.

Definition recordsOf (yr : jsnumber) (p : nat) : list church :=
  match pageChurchesOf yr p with Some cs => cs | None => [] end.

(** The records of pages [1..k], in page order. *)
Definition recordsUpTo (yr : jsnumber) (k : nat) : list church :=
  flat_map (recordsOf yr) (seq 1 k).

Definition urlsUpTo (yr : jsnumber) (k : nat) : list url :=
  map (listingUrl yr) (seq 1 k).
End Scraper.

(* ================================================================== *)
(** * GET /api/get-data and loadChurchData (part_000, lines 48-69, 309-333) *)
(* ================================================================== *)

(** The value [JSON.parse] gives.  The handler reads three properties of
    it; a truthy value that is no object (a number, a string) has none of
    them and behaves as an object with every field absent.  An absent or
    falsy property is [None]. *)
Record payload : Type := mkPayload {
  consolidatedData : option (list entity);
  lastUpdated : option string;
  yearsCovered : option (list Z)
}.

Inductive jsonValue : Type :=
| JFalsy                         (* null, false, 0, the empty string *)
| JTruthy (p : payload).

(** The outcomes of [fs.access(DATA_FILE)] and
    [fs.readFile(DATA_FILE, 'utf8')]. *)
Record fileSystem : Type := mkFs {
  accessResolves : bool;
  readFile : error + string
}.

(** The module variables [cachedData] and [lastLoaded]; [None] is
    [null]. *)
Record loadCache : Type := mkLoadCache {
  cachedData : option jsonValue;
  lastLoaded : option Z
}.

Inductive body : Type :=
| ErrorBody (message : string)
| DataBody (consolidated : list entity) (updated : option string)
           (totalChurches : nat) (years : list Z).

Record httpResponse : Type := mkHttp {
  httpStatus : Z;
  httpBody : body
}.

Section GetData.
(** [JSON.parse]: [inl] when it throws a [SyntaxError]. *)
Variable JSON_parse : string -> error + jsonValue.

(** [cachedData && lastLoaded && (Date.now() - lastLoaded) < 60000]. *)
Definition cacheIsFresh (now : Z) (c : loadCache) : bool :=
  match cachedData c, lastLoaded c with
  | Some (JTruthy _), Some t => negb (t =? 0) && (now - t <? 60000)
  | _, _ => false
  end.

(** The [try] block of [loadChurchData]: the value returned ([None] for
    [null]) or the value thrown. *)
Definition loadTry (fs : fileSystem) (now : Z) (c : loadCache)
  : (error + option jsonValue) * loadCache :=
  if cacheIsFresh now c then (inr (cachedData c), c)
  else
    let fileExists := accessResolves fs in
    if negb fileExists then (inr None, c)
    else
      match readFile fs with
      | inl e => (inl e, c)
      | inr fileContent =>
          match JSON_parse fileContent with
          | inl e => (inl e, c)
          | inr data => (inr (Some data), mkLoadCache (Some data) (Some now))
          end
      end.

(** [try { ... } catch (error) { console.error(...); return null; }]. *)
Definition loadChurchData (fs : fileSystem) (now : Z) (c : loadCache)
  : option jsonValue * loadCache :=
  match loadTry fs now c with
  | (inr data, c') => (data, c')
  | (inl _, c') => (None, c')
  end.

Definition notFound : httpResponse :=
  mkHttp 404
    (ErrorBody "No church data found. Run /api/scrape-and-save first.").

(** The [try] block of the handler; [loadChurchData] returns in every
    case, so the block never hands an error to the [catch]. *)
Definition getDataTry (fs : fileSystem) (now : Z) (c : loadCache)
  : (error + httpResponse) * loadCache :=
  let (data, c') := loadChurchData fs now c in
  match data with
  | Some (JTruthy p) =>
      match consolidatedData p with
      | Some cd =>
          (inr (mkHttp 200
                  (DataBody cd (lastUpdated p) (List.length cd)
                     (match yearsCovered p with
                      | Some ys => ys
                      | None => []
                      end))), c')
      | None => (inr notFound, c')
      end
  | _ => (inr notFound, c')
  end.

Definition getData (fs : fileSystem) (now : Z) (c : loadCache)
  : httpResponse * loadCache :=
  match getDataTry fs now c with
  | (inr res, c') => (res, c')
  | (inl _, c') => (mkHttp 500 (ErrorBody "Failed to load church data"), c')
  end.

(** Reading the data file fails: the file is there and [readFile]
    rejects, or its content does not parse. *)
Definition readFails (fs : fileSystem) : Prop :=
  accessResolves fs = true /\
  ((exists e, readFile fs = inl e) \/
   (exists fileContent e,
       readFile fs = inr fileContent /\ JSON_parse fileContent = inl e)).
End GetData.

(* ================================================================== *)
(** * GET /api/scrape-year/:year (part_000, lines 550-591) *)
(* ================================================================== *)

Record cacheEntry : Type := mkEntry {
  entryData : list church;
  timestamp : Z
}.

Definition CACHE_DURATION : Z := 24 * 60 * 60 * 1000.

(** The number inside a template literal. *)
Definition numberToString (n : jsnumber) : string :=
  match n with
  | NaN => "NaN"
  | Num z => NilZero.string_of_int (Z.to_int z)
  end.

Definition cacheKey (yr : jsnumber) : string :=
  String.append "year-" (numberToString yr).

Inductive yearBody : Type :=
| YearError (message : string)
| YearData (churchList : list church) (cached : bool) (scrapedAt : Z)
| NoAnswer.

Record yearResponse : Type := mkYear {
  yearStatus : Z;
  yearPayload : yearBody
}.

Definition badRequest : yearResponse :=
  mkYear 400 (YearError "Year must be between 2015 and 2024").

Section ScrapeYear.
Variable fetch : url -> error + response.

(** [const churches = await scrapeYearData(year)] and what follows it;
    a throw is answered by the [catch] with status 500 (its message,
    which quotes the year and the error, is shortened here).  The third
    component is the list of URLs fetched. *)
Definition scrapeAndCache (now : Z) (yr : jsnumber)
    (dataCache : JsMap cacheEntry)
  : yearResponse * JsMap cacheEntry * list url :=
  match scrapeYearData fetch yr with
  | (Return cs, reqs) =>
      (mkYear 200 (YearData cs false now),
       Map_set dataCache (cacheKey yr) (mkEntry cs now), reqs)
  | (Throw e, reqs) =>
      (mkYear 500 (YearError "Failed to scrape data"), dataCache, reqs)
  | (Unfinished, reqs) => (mkYear 0 NoAnswer, dataCache, reqs)
  end.

(** The [try] block: the per-year cache first, then the scrape. *)
Definition serveYear (now : Z) (yr : jsnumber) (dataCache : JsMap cacheEntry)
  : yearResponse * JsMap cacheEntry * list url :=
  match Map_get dataCache (cacheKey yr) with
  | Some cached =>
      if now - timestamp cached <? CACHE_DURATION
      then (mkYear 200 (YearData (entryData cached) true (timestamp cached)),
            dataCache, [])
      else scrapeAndCache now yr dataCache
  | None => scrapeAndCache now yr dataCache
  end.

Definition scrapeYearRoute (now : Z) (param : string)
    (dataCache : JsMap cacheEntry)
  : yearResponse * JsMap cacheEntry * list url :=
  let yr := parseInt param in
  if num_lt yr 2015 || num_gt yr 2024 then (badRequest, dataCache, [])
  else serveYear now yr dataCache.

(** No entry of the per-year cache is fresh for [yr]. *)
Definition noFreshEntry (now : Z) (yr : jsnumber)
    (dataCache : JsMap cacheEntry) : Prop :=
  match Map_get dataCache (cacheKey yr) with
  | Some entry => CACHE_DURATION <= now - timestamp entry
  | None => True
  end.
End ScrapeYear.

(* ================================================================== *)
(** * Vocabulary of the consolidator's properties *)
(* ================================================================== *)

Definition pointOf (yr : Z) (c : church) : point :=
  mkPoint yr (attendance c) (ranking c).

Definition named (n : string) (c : church) : bool := String.eqb (name c) n.

(** The points of the records named [n], entry after entry. *)
Definition seriesOf (n : string) (yd : yearlyData) : list point :=
  flat_map (fun entry : Z * list church =>
              map (pointOf (fst entry)) (filter (named n) (snd entry)))
           yd.

(** How many records bear the name [n], over all the years. *)
Definition recordCount (n : string) (yd : yearlyData) : nat :=
  List.length (seriesOf n yd).

(** The years whose array holds a record named [n], and how many
    different years these are. *)
Definition yearsOf (n : string) (yd : yearlyData) : list Z :=
  map fst (filter (fun entry : Z * list church =>
                     existsb (named n) (snd entry)) yd).

Definition distinctYears (n : string) (yd : yearlyData) : nat :=
  List.length (nodup Z.eq_dec (yearsOf n yd)).

(** An organization appears as an entity of the output. *)
Definition appears (n : string) (out : list entity) : Prop :=
  exists e, In e out /\ e_name e = n.

(** Every year is one key and no year's array names an organization
    twice. *)
Definition oneRecordPerYear (yd : yearlyData) : Prop :=
  NoDup (map fst yd) /\
  Forall (fun entry : Z * list church => NoDup (map name (snd entry))) yd.

(** The rank of the last series element of [a] is at most that of [b]
    (both series having a last element). *)
Definition latestRankLe (a b : entity) : Prop :=
  exists pa pb,
    latest (data a) = Some pa /\ latest (data b) = Some pb /\
    p_ranking pa <= p_ranking pb.

Definition dataAt (m : JsMap entity) (n : string) : list point :=
  match Map_get m n with Some e => data e | None => [] end.

(** Every value of the map is stored under its own name. *)
Definition keyedByName (m : JsMap entity) : Prop :=
  forall k e, In (k, e) m -> e_name e = k.

(** The callback of [Object.entries(yearlyData).forEach]: one year's
    array folded into the map. *)
Definition addYear (m : JsMap entity) (entry : Z * list church)
  : JsMap entity :=
  fold_left (ServerJs.addChurch (fst entry)) (snd entry) m.

(** ** Sample inputs *)

Definition sampleChurch (n : string) (r : Z) : church :=
  mkChurch n "Location not found" "Pastor not found" None r.

(** One year whose array names the same organization three times. *)
Definition sameYearThrice : yearlyData :=
  [(2015, [sampleChurch "A" 1; sampleChurch "A" 2; sampleChurch "A" 3])].

(** Three years, two organizations present in each. *)
Definition threeYears : yearlyData :=
  [(2015, [sampleChurch "A" 2; sampleChurch "B" 1]);
   (2016, [sampleChurch "B" 4; sampleChurch "A" 3]);
   (2017, [sampleChurch "A" 7; sampleChurch "B" 5; sampleChurch "C" 1])].

(* ================================================================== *)
(** * Vocabulary of the extractor's properties *)
(* ================================================================== *)

(** A text that is a pure integer at most 100. *)
Definition isRankText (text : string) : bool :=
  match matchAllDigits text with
  | Some m => num_le (parseInt m) 100
  | None => false
  end.

(** None of the three texts tried for the rank is a pure integer at most
    100. *)
Definition noRankText (a : anchor) : Prop :=
  forall t, In t (rankingSelectors a) -> isRankText t = false.

(** The first text of the scan that contributes a number. *)
Fixpoint firstQualifying (texts : list string) : option Z :=
  match texts with
  | [] => None
  | t :: rest =>
      match qualifying t with
      | Some n => Some n
      | None => firstQualifying rest
      end
  end.

(** An anchor with a name and no text to take a rank from, and a page of
    101 of them. *)
Definition plainAnchor : anchor :=
  mkAnchor EmptyString EmptyString EmptyString "Example Org"
    EmptyString [].

Definition page101 : html := repeat plainAnchor 101.

(** An anchor whose container holds one text with two numbers. *)
Definition twoNumbers : list string := ["123 5000"%string].

(** A page of two anchors, the second with a rank text, and the record of
    the first. *)
Definition samplePage : html :=
  [plainAnchor;
   mkAnchor " 7 " EmptyString EmptyString "Second Org" EmptyString []].

Definition sampleRecord : church :=
  mkChurch "Example Org" "Location not found" "Pastor not found" None 1.

(** The texts of a container: the third is the first to contribute. *)
Definition sampleTexts : list string :=
  ["abc"; "x 999 y"; " 2015 Lakewood 43500"; "52000"]%string.

(* ================================================================== *)
(** * Vocabulary of the page loop's properties *)
(* ================================================================== *)

(** The value the loop body throws on a page that gives no records
    list: the rejection of [fetch], the [Error] made for a non-success
    status, or the rejection of [response.text()]. *)
Definition pageError (fetch : url -> error + response) (yr : jsnumber)
    (p : nat) : error :=
  match fetch (listingUrl yr p) with
  | inl e => e
  | inr r =>
      if negb (ok r) then HttpError (status r) (statusText r)
      else match text r with
           | inl e => e
           | inr _ => Rejection EmptyString
           end
  end.

(** The loop state in front of page [p]. *)
Definition atPage (p : nat) (cs : list church) (rs : list url) : loopState :=
  mkLoop cs p true rs.

(** A network for the samples: pages 1 and 2 of every year list one
    anchor, page 3 is answered with status 404. *)
Definition okResponse (markup : html) : response :=
  mkResponse true 200 "OK" (inr markup).

Definition notFoundResponse : response :=
  mkResponse false 404 "Not Found" (inr []).

Definition twoPagesThen404 (u : url) : error + response :=
  match urlPage u with
  | None => inr (okResponse [plainAnchor])
  | Some 2%nat => inr (okResponse [plainAnchor])
  | Some _ => inr notFoundResponse
  end.

(** A network whose first page is answered with status 503. *)
Definition firstPage503 (u : url) : error + response :=
  inr (mkResponse false 503 "Service Unavailable" (inr [])).

(** A network with two pages of records and an empty third page. *)
Definition twoPagesThenEmpty (u : url) : error + response :=
  match urlPage u with
  | None => inr (okResponse [plainAnchor])
  | Some 2%nat => inr (okResponse [plainAnchor])
  | Some _ => inr (okResponse [])
  end.

(** ** Sample files and requests *)

(** A parser that rejects every content, a file that cannot be read and
    one that is read, and the state of a process that has loaded
    nothing. *)
Definition rejectAll (content : string) : error + jsonValue :=
  inl (Rejection "SyntaxError").

Definition unreadableFile : fileSystem :=
  mkFs true (inl (Rejection "EIO")).

Definition garbledFile : fileSystem :=
  mkFs true (inr "{ not json"%string).

Definition nothingLoaded : loadCache := mkLoadCache None None.

(* ================================================================== *)
(** * Further vocabulary of the consolidator *)
(* ================================================================== *)

(** All the records of the input, entry after entry. *)
Definition allRecords (yd : yearlyData) : list church := flat_map snd yd.

(** The first record that bears the name [n]. *)
Definition firstRecord (n : string) (yd : yearlyData) : option church :=
  find (named n) (allRecords yd).

(** The [location] and [pastor] stored in the map under a name. *)
Definition headerAt (m : JsMap entity) (n : string)
  : option (string * string) :=
  match Map_get m n with
  | Some e => Some (e_location e, e_pastor e)
  | None => None
  end.

Definition headerOf (c : church) : string * string := (location c, pastor c).

(** How many of the names [ns] a record bears, and how many records bear
    one of them. *)
Definition bearsOneOf (ns : list string) (c : church) : nat :=
  List.length (filter (fun n => named n c) ns).

(* ================================================================== *)
(** * Further vocabulary of the extractor *)
(* ================================================================== *)

(** The anchor has a name: its own text or, failing that, the first
    heading of its container. *)
Definition hasName (a : anchor) : bool := negb (isEmpty (extractName a)).

(** A trimmed text that reads as a location. *)
Definition isLocationText (text : string) : bool :=
  testLocation text && (String.length text <? 50)%nat.

(** The pastor a trimmed text proposes, if any. *)
Definition pastorOf (text : string) : option string :=
  if includes "-" text && (String.length text <? 100)%nat then
    let possiblePastor := trim (lastPart text) in
    if negb (isEmpty possiblePastor)
       && negb (includes "," possiblePastor)
       && (String.length possiblePastor <? 50)%nat
    then Some possiblePastor else None
  else None.

Definition pastorCandidates (texts : list string) : list string :=
  flat_map (fun t => match pastorOf (trim t) with
                     | Some p => [p]
                     | None => []
                     end) texts.

Definition locationCandidates (texts : list string) : list string :=
  filter isLocationText (map trim texts).

(** What holds of every record the extractor emits. *)
Definition wellFormedRecord (c : church) : Prop :=
  isEmpty (name c) = false /\
  1 <= ranking c /\
  (location c = "Location not found"%string \/
   (testLocation (location c) = true /\
    (String.length (location c) < 50)%nat)) /\
  (isEmpty (pastor c) = false /\
   includes "," (pastor c) = false /\
   includes "-" (pastor c) = false /\
   (String.length (pastor c) < 50)%nat) /\
  (attendance c = None \/
   exists n, attendance c = Some n /\ 1000 <= n <= 100000).

(** An anchor whose first rank text is zero and whose second is five, and
    an anchor whose container holds two locations and two pastors. *)
Definition zeroFirstAnchor : anchor :=
  mkAnchor "0" "5" EmptyString "Third Org" EmptyString [].

Definition twoCitiesAnchor : anchor :=
  mkAnchor EmptyString EmptyString EmptyString "Fourth Org" EmptyString
    ["Houston, TX"; "Sr. Pastor - Joel"; " Dallas, TX ";
     "Lead - Team - Ann "; "no match"]%string.

(** The records of [twoCitiesAnchor] at index 0 and of [zeroFirstAnchor]
    at index 2. *)
Definition twoCitiesRecord : church :=
  mkChurch "Fourth Org" "Dallas, TX" "Ann" None 1.

Definition zeroFirstRecord : church :=
  mkChurch "Third Org" "Location not found" "Pastor not found" None 3.

(* ================================================================== *)
(** * Further vocabulary of the page loop *)
(* ================================================================== *)

(** The request of page [p] ends in the rejection [e]: [fetch] rejects,
    or the response has a success status and reading its body rejects. *)
Definition rejectedPage (fetch : url -> error + response) (yr : jsnumber)
    (p : nat) (e : error) : Prop :=
  fetch (listingUrl yr p) = inl e \/
  exists r, fetch (listingUrl yr p) = inr r /\ ok r = true /\ text r = inl e.

(** What holds of the value a run returns. *)
Definition returnsWellFormed (result : completion) : Prop :=
  match result with
  | Return cs => Forall wellFormedRecord cs
  | _ => True
  end.

(** Sample networks: no connection at all; two pages of records, then a
    connection reset; records on every page. *)
Definition offline (u : url) : error + response :=
  inl (Rejection "ECONNREFUSED").

Definition twoPagesThenReset (u : url) : error + response :=
  match urlPage u with
  | None => inr (okResponse [plainAnchor])
  | Some 2%nat => inr (okResponse [plainAnchor])
  | Some _ => inl (Rejection "ECONNRESET")
  end.

Definition endlessPages (u : url) : error + response :=
  inr (okResponse [plainAnchor]).

(* ================================================================== *)
(** * The loop over the years (scrape-all, scrape-and-save, get-json-data) *)
(* ================================================================== *)

(** [const years = [2015, ..., 2024]]. *)
Definition years : list Z :=
  [2015; 2016; 2017; 2018; 2019; 2020; 2021; 2022; 2023; 2024].

(** [allData[year] = churches] and [allData[year]] on an object whose
    keys are integers: the own properties are kept in ascending order of
    key, a key that is present keeps its place. *)
Fixpoint Object_set (o : yearlyData) (k : Z) (v : list church)
  : yearlyData :=
  match o with
  | [] => [(k, v)]
  | (k', v') :: o' =>
      if k =? k' then (k, v) :: o'
      else if k <? k' then (k, v) :: o
      else (k', v') :: Object_set o' k v
  end.

Fixpoint Object_get (o : yearlyData) (k : Z) : option (list church) :=
  match o with
  | [] => None
  | (k', v') :: o' => if k =? k' then Some v' else Object_get o' k
  end.

(** The variables of the loop: [allData], [errors], and the log of the
    URLs fetched so far. *)
Record scrapeRun : Type := mkRun {
  allData : yearlyData;
  errors : list (Z * error);
  fetched : list url
}.

(** The two ways out of [const churches = await scrapeYearData(year)]:
    the [try] goes on and stores the records of the year, or the [catch]
    records the error; the loop goes on in both. *)
Definition storeOutcome (outcome : completion * list url)
    (st : scrapeRun) (yr : Z) : scrapeRun :=
  match outcome with
  | (Return cs, reqs) =>
      mkRun (Object_set (allData st) yr cs) (errors st) (fetched st ++ reqs)
  | (Throw e, reqs) =>
      mkRun (allData st) (errors st ++ [(yr, e)]) (fetched st ++ reqs)
  | (Unfinished, reqs) => mkRun (allData st) (errors st) (fetched st ++ reqs)
  end.

(** What an outcome adds to [allData] and to [errors]. *)
Definition returnedOf (result : completion) (yr : Z)
  : list (Z * list church) :=
  match result with
  | Return cs => [(yr, cs)]
  | _ => []
  end.

Definition thrownOf (result : completion) (yr : Z) : list (Z * error) :=
  match result with
  | Throw e => [(yr, e)]
  | _ => []
  end.

Definition returnsRecords (result : completion) : bool :=
  match result with
  | Return (_ :: _) => true
  | _ => false
  end.

(** [years.filter(year => allData[year] && allData[year].length > 0)],
    the [yearsCovered] of the object built after the loop; its
    [consolidatedData] is [consolidateChurchData(allData)], its
    [yearlyData] is [allData]. *)
Definition yearsCoveredBy (o : yearlyData) : list Z :=
  filter (fun yr => match Object_get o yr with
                    | Some cs => negb (List.length cs =? 0)%nat
                    | None => false
                    end) years.

Section YearLoop.
Variable fetch : url -> error + response.

(** The body of [for (const year of years)]. *)
Definition scrapeOneYear (st : scrapeRun) (yr : Z) : scrapeRun :=
  storeOutcome (scrapeYearData fetch (Num yr)) st yr.

Definition scrapeAllYears : scrapeRun :=
  fold_left scrapeOneYear years (mkRun [] [] []).

(** What the scrape of one year gives. *)
Definition returnedBy (yr : Z) : list (Z * list church) :=
  returnedOf (fst (scrapeYearData fetch (Num yr))) yr.

Definition thrownBy (yr : Z) : list (Z * error) :=
  thrownOf (fst (scrapeYearData fetch (Num yr))) yr.
End YearLoop.

(** What holds of every point of a report: its year is a covered year,
    its rank is at least 1, its attendance is null or in range. *)
Definition soundPoint (covered : list Z) (p : point) : Prop :=
  In (year p) covered /\ 1 <= p_ranking p /\
  (p_attendance p = None \/
   exists n, p_attendance p = Some n /\ 1000 <= n <= 100000).

(** A network for a sample run: the listing of 2016 is answered with
    status 503, every other year has one page of one record. *)
Definition all2016Fails (u : url) : error + response :=
  match urlYear u, urlPage u with
  | Num 2016, _ => inr (mkResponse false 503 "Service Unavailable" (inr []))
  | _, None => inr (okResponse [plainAnchor])
  | _, Some _ => inr (okResponse [])
  end.

(** The scrape of the year returns at least one record. *)
Definition hasRecords (fetch : url -> error + response) (yr : Z) : bool :=
  returnsRecords (fst (scrapeYearData fetch (Num yr))).

(** A network on which the first page of 2016 has no record and every
    other year has one page of one record. *)
Definition twoPagesThenEmptyIn2016 (u : url) : error + response :=
  match urlYear u, urlPage u with
  | Num 2016, _ => inr (okResponse [])
  | _, None => inr (okResponse [plainAnchor])
  | _, Some _ => inr (okResponse [])
  end.

(* ================================================================== *)
(** * Further vocabulary of the two routes *)
(* ================================================================== *)

(** Every entry of the per-year cache holds what a scrape of its year
    returns on the network [fetch]. *)
Definition cacheSound (fetch : url -> error + response)
    (dataCache : JsMap cacheEntry) : Prop :=
  forall yr entry,
    Map_get dataCache (cacheKey yr) = Some entry ->
    fst (scrapeYearData fetch yr) = Return (entryData entry).

(** The churches a response carries, if it carries any. *)
Definition churchesOf (res : yearResponse) : option (list church) :=
  match yearPayload res with
  | YearData cs _ _ => Some cs
  | _ => None
  end.

(** The cache the route leaves, and the URLs it fetched. *)
Definition cacheAfter {A B C : Type} (r : A * B * C) : B := snd (fst r).
Definition answerOf {A B C : Type} (r : A * B * C) : A := fst (fst r).

(* ================================================================== *)
(** * GET /api/data-info (server.js, lines 71-93) *)
(* ================================================================== *)




Section DataInfo.
Variable JSON_parse : string -> error + jsonValue.
(** The [fileSize] field of the parsed object, [None] when it is absent
    or falsy. *)
Variable fileSizeOf : payload -> option string.


End DataInfo.

(** A data file of two entities and the result of parsing it. *)
Definition savedPayload : payload :=
  mkPayload (Some [mkEntity "Grace" "Austin, TX" "Pat Lee" [];
                   mkEntity "Hope" "Reno, NV" "Sam Roe" []])
            (Some "2024-05-01T00:00:00.000Z"%string)
            (Some [2015; 2016; 2017]).

Definition savedFile : fileSystem := mkFs true (inr "{ saved }"%string).

Definition parseSaved (content : string) : error + jsonValue :=
  inr (JTruthy savedPayload).


(** The file has been removed. *)
Definition missingFile : fileSystem := mkFs false (inl (Rejection "ENOENT")).



(* ================================================================== *)
(** * Facts about the library models *)
(* ================================================================== *)

Section ArraySortFacts.
Context {A : Type}.
Variable cmp : A -> A -> Z.

Lemma sort_insert_perm (x : A) (l : list A) :
  Permutation (sort_insert cmp x l) (x :: l).
Proof.
  induction l as [|y l IH]; simpl.
  - apply Permutation_refl.
  - destruct (0 <? cmp x y).
    + eapply perm_trans; [apply perm_skip, IH | apply perm_swap].
    + apply Permutation_refl.
Qed.

Lemma Array_sort_perm (l : list A) : Permutation (Array_sort cmp l) l.
Proof.
  induction l as [|x l IH]; simpl.
  - constructor.
  - eapply perm_trans; [apply sort_insert_perm | now apply perm_skip].
Qed.

Lemma Array_sort_In (l : list A) (x : A) :
  In x (Array_sort cmp l) <-> In x l.
Proof.
  split; apply Permutation_in;
    [apply Array_sort_perm | apply Permutation_sym, Array_sort_perm].
Qed.

Lemma Array_sort_length (l : list A) :
  List.length (Array_sort cmp l) = List.length l.
Proof. apply Permutation_length, Array_sort_perm. Qed.
End ArraySortFacts.

(** A comparator that subtracts integer keys orders by the key. *)
Section SortByKey.
Context {A : Type}.
Variable key : A -> Z.
Let cmp (a b : A) : Z := key a - key b.
Let le (a b : A) : Prop := key a <= key b.

Lemma sort_insert_sorted (x : A) (l : list A) :
  StronglySorted le l -> StronglySorted le (sort_insert cmp x l).
Proof.
  induction 1 as [|y l Hs IH Hall]; simpl.
  - repeat constructor.
  - unfold cmp at 1. destruct (Z.ltb_spec 0 (key x - key y)) as [Hlt|Hge].
    + constructor; [exact IH|].
      apply Forall_forall. intros z Hz.
      apply (Permutation_in _ (sort_insert_perm cmp x l)) in Hz.
      destruct Hz as [<-|Hz]; [unfold le; lia|].
      rewrite Forall_forall in Hall. now apply Hall.
    + constructor; [now constructor|].
      constructor; [unfold le; lia|].
      eapply Forall_impl; [|exact Hall]. unfold le. intros z Hz. lia.
Qed.

Lemma Array_sort_sorted (l : list A) : StronglySorted le (Array_sort cmp l).
Proof.
  induction l as [|x l IH]; simpl.
  - constructor.
  - now apply sort_insert_sorted.
Qed.
End SortByKey.

Lemma StronglySorted_strict (l : list Z) :
  StronglySorted Z.le l -> NoDup l -> StronglySorted Z.lt l.
Proof.
  induction 1 as [|x l Hs IH Hall]; intros Hnd.
  - constructor.
  - inversion Hnd as [|? ? Hnotin Hnd']; subst.
    constructor; [now apply IH|].
    rewrite Forall_forall in *. intros y Hy.
    specialize (Hall y Hy).
    assert (x <> y) by (intros ->; contradiction).
    lia.
Qed.

Lemma StronglySorted_map {A B : Type} (f : A -> B) (R : B -> B -> Prop)
    (l : list A) :
  StronglySorted (fun a b => R (f a) (f b)) l -> StronglySorted R (map f l).
Proof.
  induction 1 as [|x l Hs IH Hall]; simpl; constructor; auto.
  rewrite Forall_forall in *. intros y Hy.
  apply in_map_iff in Hy as (a & <- & Ha). now apply Hall.
Qed.

Section JsMapFacts.
Context {V : Type}.
Implicit Types (m : JsMap V) (k : string) (v : V).

Lemma Map_get_set_same m k v : Map_get (Map_set m k v) k = Some v.
Proof.
  induction m as [|[k' v'] m IH]; simpl.
  - now rewrite String.eqb_refl.
  - destruct (String.eqb k' k) eqn:E; simpl.
    + now rewrite String.eqb_refl.
    + now rewrite E.
Qed.

Lemma Map_get_set_other m k v k0 :
  k0 <> k -> Map_get (Map_set m k v) k0 = Map_get m k0.
Proof.
  intros Hne. induction m as [|[k' v'] m IH]; simpl.
  - destruct (String.eqb_spec k k0); [congruence|reflexivity].
  - destruct (String.eqb_spec k' k) as [->|Hk]; simpl.
    + destruct (String.eqb_spec k k0); [congruence|reflexivity].
    + destruct (String.eqb k' k0); [reflexivity|exact IH].
Qed.

Lemma Map_get_In m k v : Map_get m k = Some v -> In (k, v) m.
Proof.
  induction m as [|[k' v'] m IH]; simpl; [discriminate|].
  destruct (String.eqb_spec k' k) as [->|Hk].
  - intros [= ->]. now left.
  - intros H. right. now apply IH.
Qed.

Lemma In_Map_get m k v :
  NoDup (map fst m) -> In (k, v) m -> Map_get m k = Some v.
Proof.
  induction m as [|[k' v'] m IH]; simpl; [intros _ []|].
  intros Hnd [Heq|Hin]; inversion Hnd as [|? ? Hnotin Hnd']; subst.
  - injection Heq as -> ->. now rewrite String.eqb_refl.
  - destruct (String.eqb_spec k' k) as [->|Hk].
    + exfalso. apply Hnotin. change k with (fst (k, v)). now apply in_map.
    + now apply IH.
Qed.

Lemma Map_get_None_keys m k : Map_get m k = None -> ~ In k (map fst m).
Proof.
  induction m as [|[k' v'] m IH]; simpl; [intros _ []|].
  destruct (String.eqb_spec k' k) as [->|Hk]; [discriminate|].
  intros H [Heq|Hin]; [congruence|]. now apply IH.
Qed.

Lemma Map_set_keys m k v :
  map fst (Map_set m k v) =
  match Map_get m k with
  | Some _ => map fst m
  | None => map fst m ++ [k]
  end.
Proof.
  induction m as [|[k' v'] m IH]; simpl; [reflexivity|].
  destruct (String.eqb_spec k' k) as [->|Hk]; simpl; [reflexivity|].
  rewrite IH. now destruct (Map_get m k).
Qed.

Lemma Map_set_NoDup m k v :
  NoDup (map fst m) -> NoDup (map fst (Map_set m k v)).
Proof.
  intros Hnd. rewrite Map_set_keys.
  destruct (Map_get m k) eqn:E; [exact Hnd|].
  apply NoDup_app; [exact Hnd | repeat constructor; intros [] |].
  intros x Hx [<-|[]]. now apply (Map_get_None_keys _ _ E).
Qed.

Lemma Map_set_In m k v k0 v0 :
  In (k0, v0) (Map_set m k v) -> (k0 = k /\ v0 = v) \/ In (k0, v0) m.
Proof.
  induction m as [|[k' v'] m IH]; simpl.
  - intros [[= <- <-]|[]]. now left.
  - destruct (String.eqb_spec k' k) as [->|Hk]; simpl.
    + intros [[= <- <-]|H]; [now left | right; now right].
    + intros [H|H]; [right; now left|].
      destruct (IH H) as [?|?]; [now left | right; now right].
Qed.
End JsMapFacts.

(* ================================================================== *)
(** * The consolidator *)
(* ================================================================== *)

Section CollectFacts.
Import ServerJs.
Implicit Types (m : JsMap entity) (c : church) (n : string).

Lemma addChurch_get_same yr m c :
  Map_get (addChurch yr m c) (name c) =
  Some (match Map_get m (name c) with
        | Some e => set_data e (data e ++ [pointOf yr c])
        | None => mkEntity (name c) (location c) (pastor c) [pointOf yr c]
        end).
Proof.
  unfold addChurch, Map_has.
  destruct (Map_get m (name c)) as [e|] eqn:E; simpl.
  - rewrite E. apply Map_get_set_same.
  - rewrite Map_get_set_same. apply Map_get_set_same.
Qed.

Lemma addChurch_get_other yr m c n :
  n <> name c -> Map_get (addChurch yr m c) n = Map_get m n.
Proof.
  intros Hne. unfold addChurch, Map_has.
  destruct (Map_get m (name c)) as [e|] eqn:E; simpl.
  - rewrite E. now apply Map_get_set_other.
  - rewrite Map_get_set_same.
    now rewrite !Map_get_set_other by exact Hne.
Qed.

Lemma addChurch_dataAt yr m c n :
  dataAt (addChurch yr m c) n =
  dataAt m n ++ (if named n c then [pointOf yr c] else []).
Proof.
  unfold dataAt, named.
  destruct (String.eqb_spec (name c) n) as [<-|Hne].
  - rewrite addChurch_get_same. now destruct (Map_get m (name c)).
  - rewrite addChurch_get_other by congruence. now rewrite app_nil_r.
Qed.

Lemma addChurch_NoDup yr m c :
  NoDup (map fst m) -> NoDup (map fst (addChurch yr m c)).
Proof.
  intros Hnd. unfold addChurch.
  set (m1 := if negb (Map_has m (name c)) then _ else m).
  assert (NoDup (map fst m1)).
  { subst m1. destruct (negb _); [now apply Map_set_NoDup | exact Hnd]. }
  destruct (Map_get m1 (name c)); [now apply Map_set_NoDup | assumption].
Qed.

Lemma addChurch_keyed yr m c : keyedByName m -> keyedByName (addChurch yr m c).
Proof.
  intros Hk. unfold addChurch.
  set (m1 := if negb (Map_has m (name c)) then _ else m).
  assert (H1 : keyedByName m1).
  { subst m1. destruct (negb _); [|exact Hk].
    intros k e Hin. apply Map_set_In in Hin as [[-> ->]|Hin]; [reflexivity|].
    now apply Hk. }
  destruct (Map_get m1 (name c)) as [e0|] eqn:E; [|exact H1].
  intros k e Hin. apply Map_set_In in Hin as [[-> ->]|Hin].
  - simpl. apply H1. now apply Map_get_In.
  - now apply H1.
Qed.

Lemma addYear_dataAt entry m n :
  dataAt (addYear m entry) n =
  dataAt m n ++ map (pointOf (fst entry)) (filter (named n) (snd entry)).
Proof.
  unfold addYear. destruct entry as [yr cs]. simpl. revert m.
  induction cs as [|c cs IH]; intros m; simpl.
  - now rewrite app_nil_r.
  - rewrite IH, addChurch_dataAt, <- app_assoc.
    now destruct (named n c).
Qed.

Lemma addYear_invariant entry m :
  NoDup (map fst m) /\ keyedByName m ->
  NoDup (map fst (addYear m entry)) /\ keyedByName (addYear m entry).
Proof.
  unfold addYear. destruct entry as [yr cs]. simpl. revert m.
  induction cs as [|c cs IH]; intros m [Hnd Hk]; simpl; [now split|].
  apply IH. split; [now apply addChurch_NoDup | now apply addChurch_keyed].
Qed.

Lemma fold_addYear_dataAt yd m n :
  dataAt (fold_left addYear yd m) n = dataAt m n ++ seriesOf n yd.
Proof.
  revert m. induction yd as [|entry yd IH]; intros m; simpl.
  - now rewrite app_nil_r.
  - now rewrite IH, addYear_dataAt, <- app_assoc.
Qed.

Lemma fold_addYear_invariant yd m :
  NoDup (map fst m) /\ keyedByName m ->
  NoDup (map fst (fold_left addYear yd m)) /\
  keyedByName (fold_left addYear yd m).
Proof.
  revert m. induction yd as [|entry yd IH]; intros m H; simpl; [exact H|].
  now apply IH, addYear_invariant.
Qed.

Lemma collect_dataAt yd n : dataAt (collect yd) n = seriesOf n yd.
Proof. exact (fold_addYear_dataAt yd [] n). Qed.

Lemma collect_invariant yd :
  NoDup (map fst (collect yd)) /\ keyedByName (collect yd).
Proof.
  apply (fold_addYear_invariant yd []). split; [constructor|].
  intros k e [].
Qed.

(** The values of the map: one entity per name met, holding the series
    of that name. *)
Lemma collect_values yd e :
  In e (Map_values (collect yd)) <->
  Map_get (collect yd) (e_name e) = Some e.
Proof.
  destruct (collect_invariant yd) as [Hnd Hk]. unfold Map_values. split.
  - intros Hin. apply in_map_iff in Hin as ([k e'] & Heq & Hin).
    simpl in Heq. subst e'. rewrite (Hk _ _ Hin).
    now apply In_Map_get.
  - intros Hget. apply Map_get_In in Hget.
    apply in_map_iff. now exists (e_name e, e).
Qed.

Lemma collect_values_data yd e :
  In e (Map_values (collect yd)) -> data e = seriesOf (e_name e) yd.
Proof.
  intros Hin. apply collect_values in Hin.
  rewrite <- collect_dataAt. unfold dataAt. now rewrite Hin.
Qed.

(** The entities of the output: the values with three points or more,
    their series sorted by year. *)
Lemma consolidate_In yd e :
  In e (consolidateChurchData yd) <->
  exists e0,
    In e0 (Map_values (collect yd)) /\
    (3 <= List.length (data e0))%nat /\
    e = set_data e0 (Array_sort byYear (data e0)).
Proof.
  unfold consolidateChurchData. rewrite Array_sort_In, in_map_iff.
  split.
  - intros (e0 & <- & Hin). apply filter_In in Hin as [Hin Hlen].
    exists e0. repeat split; auto. now apply Nat.leb_le.
  - intros (e0 & Hin & Hlen & ->). exists e0. split; [reflexivity|].
    apply filter_In. split; [exact Hin | now apply Nat.leb_le].
Qed.

Lemma consolidate_series yd e :
  In e (consolidateChurchData yd) ->
  data e = Array_sort byYear (seriesOf (e_name e) yd) /\
  (3 <= List.length (data e))%nat.
Proof.
  intros Hin. apply consolidate_In in Hin as (e0 & Hin & Hlen & ->).
  simpl. rewrite Array_sort_length.
  now rewrite <- (collect_values_data yd e0 Hin).
Qed.

Lemma appears_iff_recordCount yd n :
  appears n (consolidateChurchData yd) <-> (3 <= recordCount n yd)%nat.
Proof.
  unfold appears, recordCount. split.
  - intros (e & Hin & <-).
    destruct (consolidate_series yd e Hin) as [Hd Hlen].
    now rewrite Hd, Array_sort_length in Hlen.
  - intros Hlen. rewrite <- collect_dataAt in Hlen. unfold dataAt in Hlen.
    destruct (Map_get (collect yd) n) as [e0|] eqn:E; [|simpl in Hlen; lia].
    destruct (collect_invariant yd) as [_ Hk].
    assert (Hn : e_name e0 = n) by (apply Hk; now apply Map_get_In).
    exists (set_data e0 (Array_sort byYear (data e0))). split; [|exact Hn].
    apply consolidate_In. exists e0. repeat split; auto.
    apply collect_values. now rewrite Hn.
Qed.
End CollectFacts.

Section YearCounting.
Implicit Types (n : string) (yd : yearlyData).

Lemma filter_named_absent n (cs : list church) :
  ~ In n (map name cs) -> filter (named n) cs = [].
Proof.
  induction cs as [|c cs IH]; simpl; [reflexivity|].
  intros Hnot. unfold named at 1.
  destruct (String.eqb_spec (name c) n) as [Heq|Hne].
  - exfalso. apply Hnot. now left.
  - apply IH. intros Hin. apply Hnot. now right.
Qed.

(** An array that names nobody twice holds one record of a name, or
    none. *)
Lemma filter_named_NoDup n (cs : list church) :
  NoDup (map name cs) ->
  List.length (filter (named n) cs) =
  if existsb (named n) cs then 1%nat else 0%nat.
Proof.
  induction cs as [|c cs IH]; simpl; [reflexivity|].
  intros Hnd. inversion Hnd as [|? ? Hnotin Hnd']; subst.
  destruct (named n c) eqn:E; simpl.
  - apply String.eqb_eq in E. subst n. now rewrite filter_named_absent.
  - now apply IH.
Qed.

Lemma existsb_filter_length n (cs : list church) :
  existsb (named n) cs = true -> (1 <= List.length (filter (named n) cs))%nat.
Proof.
  induction cs as [|c cs IH]; simpl; [discriminate|].
  destruct (named n c); simpl; [lia | exact IH].
Qed.

Lemma yearsOf_length n yd :
  (List.length (yearsOf n yd) <= recordCount n yd)%nat.
Proof.
  unfold yearsOf, recordCount, seriesOf.
  induction yd as [|[yr cs] yd IH]; simpl; [lia|].
  rewrite length_app. rewrite !length_map in *.
  destruct (existsb (named n) cs) eqn:E; simpl; [|lia].
  pose proof (existsb_filter_length n cs E). lia.
Qed.

Lemma distinctYears_le_recordCount n yd :
  (distinctYears n yd <= recordCount n yd)%nat.
Proof.
  unfold distinctYears.
  eapply Nat.le_trans; [|apply yearsOf_length].
  apply NoDup_incl_length; [apply NoDup_nodup|].
  intros y Hy. now apply nodup_In in Hy.
Qed.

Lemma seriesOf_years n yd :
  Forall (fun entry : Z * list church => NoDup (map name (snd entry))) yd ->
  map year (seriesOf n yd) = yearsOf n yd.
Proof.
  unfold seriesOf, yearsOf.
  induction 1 as [|[yr cs] yd Hnd Hall IH]; simpl; [reflexivity|].
  rewrite map_app, IH. simpl in Hnd.
  pose proof (filter_named_NoDup n cs Hnd) as Hlen.
  destruct (existsb (named n) cs); simpl;
    destruct (filter (named n) cs) as [|c [|c' l]];
    simpl in *; try discriminate; reflexivity.
Qed.

Lemma yearsOf_In n yd (y : Z) : In y (yearsOf n yd) -> In y (map fst yd).
Proof.
  unfold yearsOf. intros Hin.
  apply in_map_iff in Hin as (entry & <- & Hin).
  apply filter_In in Hin as [Hin _]. now apply in_map.
Qed.

Lemma yearsOf_NoDup n yd : NoDup (map fst yd) -> NoDup (yearsOf n yd).
Proof.
  induction yd as [|[yr cs] yd IH]; simpl; intros Hkeys; [constructor|].
  inversion Hkeys as [|? ? Hfresh Hrest]; subst.
  unfold yearsOf in *. simpl.
  destruct (existsb (named n) cs); simpl; [|now apply IH].
  constructor; [|now apply IH].
  intros Hin. apply Hfresh. now apply (yearsOf_In n).
Qed.

Lemma recordCount_distinctYears n yd :
  oneRecordPerYear yd -> recordCount n yd = distinctYears n yd.
Proof.
  intros [Hkeys Hnames]. unfold recordCount, distinctYears.
  rewrite nodup_fixed_point by now apply yearsOf_NoDup.
  now rewrite <- (seriesOf_years n yd Hnames), length_map.
Qed.
End YearCounting.

Lemma latest_defined (d : list point) :
  d <> [] -> exists p, latest d = Some p.
Proof.
  destruct d as [|p0 d]; [congruence|]. intros _. unfold latest.
  destruct (nth_error (p0 :: d) (List.length (p0 :: d) - 1)) as [p|] eqn:E.
  - now exists p.
  - apply nth_error_None in E. simpl in E. lia.
Qed.

Lemma consolidate_latest_defined (yd : yearlyData) (e : entity) :
  In e (ServerJs.consolidateChurchData yd) ->
  exists p, latest (data e) = Some p /\ latestRanking e = p_ranking p.
Proof.
  intros Hin. destruct (consolidate_series yd e Hin) as [_ Hlen].
  destruct (latest_defined (data e)) as [p Hp].
  { intros Hnil. rewrite Hnil in Hlen. simpl in Hlen. lia. }
  exists p. split; [exact Hp|]. unfold latestRanking. now rewrite Hp.
Qed.

Lemma StronglySorted_In_impl {A : Type} (R R' : A -> A -> Prop) (l : list A) :
  (forall a b, In a l -> In b l -> R a b -> R' a b) ->
  StronglySorted R l -> StronglySorted R' l.
Proof.
  intros Himpl Hs. induction Hs as [|x l Hs IH Hall].
  - constructor.
  - constructor.
    + apply IH. intros a b Ha Hb. apply Himpl; now right.
    + rewrite Forall_forall in *. intros y Hy.
      apply Himpl; [now left | now right | now apply Hall].
Qed.

(* ================================================================== *)
(** * Properties of the consolidator *)
(* ================================================================== *)

(** C1, as the code has it.  An organization appears as an entity of the
    output exactly when three or more records bear its name over all the
    years, the records of one year counting one by one.  Records in three
    distinct years are therefore enough; they are also needed when every
    year is one key and no year's array names an organization twice. *)
Theorem entity_appears_iff_three_records (yd : yearlyData) (n : string) :
  (appears n (ServerJs.consolidateChurchData yd)
   <-> (3 <= recordCount n yd)%nat) /\
  ((3 <= distinctYears n yd)%nat ->
   appears n (ServerJs.consolidateChurchData yd)) /\
  (oneRecordPerYear yd ->
   (appears n (ServerJs.consolidateChurchData yd)
    <-> (3 <= distinctYears n yd)%nat)).
Proof.
  split; [apply appears_iff_recordCount|]. split.
  - intros H. apply appears_iff_recordCount.
    pose proof (distinctYears_le_recordCount n yd). lia.
  - intros Hone. rewrite appears_iff_recordCount.
    now rewrite (recordCount_distinctYears n yd Hone).
Qed.

Lemma threeYears_oneRecordPerYear : oneRecordPerYear threeYears.
Proof.
  split.
  - repeat (constructor; [simpl; intuition discriminate|]). constructor.
  - repeat (constructor;
            [repeat (constructor; [simpl; intuition discriminate|]);
             constructor|]).
    constructor.
Qed.

Lemma entity_appears_iff_three_records_witness :
  appears "A" (ServerJs.consolidateChurchData threeYears) /\
  (appears "C" (ServerJs.consolidateChurchData threeYears)
   <-> (3 <= distinctYears "C" threeYears)%nat).
Proof.
  split.
  - apply (proj1 (proj2 (entity_appears_iff_three_records threeYears "A"))).
    vm_compute. apply le_n.
  - apply (proj2 (proj2 (entity_appears_iff_three_records threeYears "C"))).
    exact threeYears_oneRecordPerYear.
Defined.

(** C1 as the specification words it fails: the three records of one
    year make an entity, with one distinct year only. *)
Lemma same_year_records_counterexample :
  appears "A" (ServerJs.consolidateChurchData sameYearThrice) /\
  distinctYears "A" sameYearThrice = 1%nat /\
  ~ (appears "A" (ServerJs.consolidateChurchData sameYearThrice)
     <-> (3 <= distinctYears "A" sameYearThrice)%nat).
Proof.
  assert (Happ : appears "A" (ServerJs.consolidateChurchData sameYearThrice)).
  { unfold appears. eexists. split; [vm_compute; left; reflexivity|reflexivity]. }
  split; [exact Happ|]. split; [reflexivity|].
  intros [Hto _]. specialize (Hto Happ). vm_compute in Hto. lia.
Qed.

(** C2.  In the list returned by [consolidateChurchData] every entity has
    a last series element, and its rank is at most the rank of the last
    series element of every entity that follows: the ranks of the most
    recent elements never decrease along the list. *)
Theorem output_sorted_by_latest_rank (yd : yearlyData) :
  StronglySorted latestRankLe (ServerJs.consolidateChurchData yd).
Proof.
  apply StronglySorted_In_impl
    with (R := fun a b => latestRanking a <= latestRanking b).
  - intros a b Ha Hb Hle.
    destruct (consolidate_latest_defined yd a Ha) as (pa & Hpa & Hra).
    destruct (consolidate_latest_defined yd b Hb) as (pb & Hpb & Hrb).
    exists pa, pb. repeat split; auto. congruence.
  - unfold ServerJs.consolidateChurchData.
    apply (Array_sort_sorted latestRanking).
Qed.

(** C3, as the code has it.  The years of every output entity's series
    never decrease; they strictly increase, no year occurring twice, when
    every year is one key and no year's array names an organization
    twice. *)
Theorem series_ascending_by_year (yd : yearlyData) :
  Forall (fun e => StronglySorted Z.le (map year (data e)))
         (ServerJs.consolidateChurchData yd) /\
  (oneRecordPerYear yd ->
   Forall (fun e => StronglySorted Z.lt (map year (data e)))
          (ServerJs.consolidateChurchData yd)).
Proof.
  assert (Hle : forall e, In e (ServerJs.consolidateChurchData yd) ->
                          StronglySorted Z.le (map year (data e))).
  { intros e Hin. destruct (consolidate_series yd e Hin) as [-> _].
    apply StronglySorted_map. apply (Array_sort_sorted year). }
  split; [apply Forall_forall; exact Hle|].
  intros [Hkeys Hnames]. apply Forall_forall. intros e Hin.
  apply StronglySorted_strict; [now apply Hle|].
  destruct (consolidate_series yd e Hin) as [-> _].
  eapply Permutation_NoDup.
  - apply Permutation_sym, Permutation_map, Array_sort_perm.
  - rewrite (seriesOf_years _ yd Hnames). now apply yearsOf_NoDup.
Qed.

Lemma series_ascending_by_year_witness :
  Forall (fun e => StronglySorted Z.lt (map year (data e)))
         (ServerJs.consolidateChurchData threeYears).
Proof.
  apply (proj2 (series_ascending_by_year threeYears)).
  exact threeYears_oneRecordPerYear.
Defined.

(** C3 as the specification words it fails: the series built from three
    records of one year repeats that year. *)
Lemma repeated_year_counterexample :
  exists e,
    In e (ServerJs.consolidateChurchData sameYearThrice) /\
    map year (data e) = [2015; 2015; 2015] /\
    ~ StronglySorted Z.lt (map year (data e)).
Proof.
  eexists. split; [vm_compute; left; reflexivity|].
  split; [reflexivity|].
  simpl. intros Hs. inversion Hs as [|? ? _ Hall]; subst.
  inversion Hall as [|? ? Hlt _]; subst. lia.
Qed.

(** C10.  The consolidator of src/server.js and the one of
    src/unnamed/part_000 return the same list on every input. *)
Theorem consolidators_agree (yd : yearlyData) :
  ServerJs.consolidateChurchData yd = Part000.consolidateChurchData yd.
Proof.
  unfold ServerJs.consolidateChurchData, Part000.consolidateChurchData.
  f_equal.
Qed.

(* ================================================================== *)
(** * The extractor: ranks *)
(* ================================================================== *)

Lemma digitOf_nonneg (radix : Z) (c : ascii) (d : Z) :
  digitOf radix c = Some d -> 0 <= d.
Proof.
  unfold digitOf, isDigit, between.
  destruct ((48 <=? code c)%nat && (code c <=? 57)%nat) eqn:Ed.
  - apply andb_true_iff in Ed as [Hlo _]. apply Nat.leb_le in Hlo.
    destruct (_ <? radix); intros [= <-]. lia.
  - destruct ((97 <=? code c)%nat && (code c <=? 102)%nat) eqn:El.
    + apply andb_true_iff in El as [Hlo _]. apply Nat.leb_le in Hlo.
      destruct (_ <? radix); intros [= <-]. lia.
    + destruct ((65 <=? code c)%nat && (code c <=? 70)%nat) eqn:Eu.
      * apply andb_true_iff in Eu as [Hlo _]. apply Nat.leb_le in Hlo.
        destruct (_ <? radix); intros [= <-]. lia.
      * rewrite Z.ltb_irrefl. discriminate.
Qed.

Lemma digitsValue_nonneg (radix : Z) (s : string) :
  0 <= radix ->
  forall acc seen z,
    0 <= acc -> digitsValue radix acc seen s = Num z -> 0 <= z.
Proof.
  intros Hr. induction s as [|c s IH]; simpl; intros acc seen z Hacc.
  - destruct seen; [intros [= <-]; exact Hacc | discriminate].
  - destruct (digitOf radix c) as [d|] eqn:Ed.
    + apply IH. pose proof (digitOf_nonneg _ _ _ Ed). nia.
    + destruct seen; [intros [= <-]; exact Hacc | discriminate].
Qed.

Lemma unsignedValue_nonneg (s : string) (z : Z) :
  unsignedValue s = Num z -> 0 <= z.
Proof.
  unfold unsignedValue.
  destruct s as [|c0 [|c1 s']];
    try (apply digitsValue_nonneg; lia).
  destruct (_ && _); apply digitsValue_nonneg; lia.
Qed.

Lemma digit_not_space (c : ascii) : isDigit c = true -> isSpace c = false.
Proof.
  unfold isDigit, isSpace, between. intros H.
  apply andb_true_iff in H as [Hlo Hhi].
  apply Nat.leb_le in Hlo. apply Nat.leb_le in Hhi.
  repeat (apply orb_false_iff; split).
  - apply andb_false_iff. right. apply Nat.leb_gt. lia.
  - apply Nat.eqb_neq. lia.
  - apply Nat.eqb_neq. lia.
Qed.

Lemma digit_not_sign (c : ascii) :
  isDigit c = true -> Ascii.eqb c "-" = false /\ Ascii.eqb c "+" = false.
Proof.
  intros H. split.
  - destruct (Ascii.eqb_spec c "-") as [->|]; [discriminate H|reflexivity].
  - destruct (Ascii.eqb_spec c "+") as [->|]; [discriminate H|reflexivity].
Qed.

Lemma digitOf_decimal (d : ascii) :
  isDigit d = true -> digitOf 10 d = Some (Z.of_nat (code d) - 48).
Proof.
  intros Hd. unfold digitOf. rewrite Hd. unfold isDigit, between in Hd.
  apply andb_true_iff in Hd as [Hlo Hhi].
  apply Nat.leb_le in Hlo. apply Nat.leb_le in Hhi.
  destruct (Z.ltb_spec (Z.of_nat (code d) - 48) 10); [reflexivity|lia].
Qed.

Lemma digitsValue_seen (t : string) :
  allChars isDigit t = true ->
  forall acc, digitsValue 10 acc true t <> NaN.
Proof.
  induction t as [|d t IH]; simpl; intros Ht acc; [discriminate|].
  apply andb_true_iff in Ht as [Hd Ht].
  rewrite (digitOf_decimal d Hd). now apply IH.
Qed.

Lemma digitsValue_digits (d : ascii) (t : string) :
  isDigit d = true -> allChars isDigit t = true ->
  digitsValue 10 0 false (String d t) <> NaN.
Proof.
  intros Hd Ht. simpl. rewrite (digitOf_decimal d Hd).
  now apply digitsValue_seen.
Qed.

(** Digits are read in base ten: the second character is no [x]. *)
Lemma unsignedValue_digits (d : ascii) (t : string) :
  isDigit d = true -> allChars isDigit t = true ->
  unsignedValue (String d t) = digitsValue 10 0 false (String d t).
Proof.
  intros Hd Ht. unfold unsignedValue. destruct t as [|c1 t']; [reflexivity|].
  simpl in Ht. apply andb_true_iff in Ht as [Hc1 _].
  assert (Hx : Ascii.eqb c1 "x" || Ascii.eqb c1 "X" = false).
  { apply orb_false_iff. split.
    - destruct (Ascii.eqb_spec c1 "x") as [->|]; [discriminate Hc1|reflexivity].
    - destruct (Ascii.eqb_spec c1 "X") as [->|]; [discriminate Hc1|reflexivity]. }
  now rewrite Hx, andb_false_r.
Qed.

(** A text of digits parses to a number that is not negative. *)
Lemma parseInt_digits (text m : string) :
  matchAllDigits text = Some m ->
  m = text /\ exists z, parseInt m = Num z /\ 0 <= z.
Proof.
  unfold matchAllDigits.
  destruct text as [|c s]; simpl; [discriminate|].
  destruct (isDigit c) eqn:Ec; simpl; [|discriminate].
  destruct (allChars isDigit s) eqn:Es; [|discriminate].
  intros [= <-]. split; [reflexivity|].
  assert (Htrim : trimStart (String c s) = String c s)
    by (cbn [trimStart]; now rewrite (digit_not_space c Ec)).
  unfold parseInt. rewrite Htrim.
  destruct (digit_not_sign c Ec) as [-> ->]. cbv beta iota.
  destruct (unsignedValue (String c s)) as [|z] eqn:Eu.
  - rewrite (unsignedValue_digits c s Ec Es) in Eu.
    now apply digitsValue_digits in Eu.
  - exists z. split; [reflexivity|]. now apply unsignedValue_nonneg in Eu.
Qed.

Lemma findRanking_Some (selectors : list string) (n : jsnumber) :
  findRanking selectors = Some n -> exists z, n = Num z /\ 0 <= z <= 100.
Proof.
  induction selectors as [|t rest IH]; simpl; [discriminate|].
  destruct (matchAllDigits t) as [m|] eqn:Em; [|exact IH].
  destruct (parseInt_digits t m Em) as (_ & z & Hz & Hpos).
  rewrite Hz. simpl. destruct (Z.leb_spec z 100); [|exact IH].
  intros [= <-]. exists z. split; [reflexivity|lia].
Qed.

Lemma findRanking_None (selectors : list string) :
  (forall t, In t selectors -> isRankText t = false) ->
  findRanking selectors = None.
Proof.
  induction selectors as [|t rest IH]; simpl; intros Hall; [reflexivity|].
  pose proof (Hall t (or_introl eq_refl)) as Ht. unfold isRankText in Ht.
  destruct (matchAllDigits t) as [m|].
  - rewrite Ht. apply IH. intros u Hu. apply Hall. now right.
  - apply IH. intros u Hu. apply Hall. now right.
Qed.

(** The rank of an anchor: a text's value between 1 and 100, or the
    position. *)
Lemma extractRanking_cases (index : nat) (a : anchor) :
  exists r,
    extractRanking index a = Num r /\
    (1 <= r <= 100 \/ r = Z.of_nat index + 1).
Proof.
  unfold extractRanking.
  destruct (findRanking (rankingSelectors a)) as [n|] eqn:E; simpl.
  - destruct (findRanking_Some _ _ E) as (z & -> & Hz). simpl.
    destruct (Z.eqb_spec z 0).
    + eexists. split; [reflexivity|]. now right.
    + exists z. split; [reflexivity|]. left. lia.
  - eexists. split; [reflexivity|]. now right.
Qed.

Lemma extractRanking_fallback (index : nat) (a : anchor) :
  noRankText a -> extractRanking index a = Num (Z.of_nat index + 1).
Proof.
  intros Hno. unfold extractRanking. now rewrite (findRanking_None _ Hno).
Qed.

Lemma parseAnchor_ranking (index : nat) (a : anchor) (c : church) :
  parseAnchor index a = Some c -> extractRanking index a = Num (ranking c).
Proof.
  unfold parseAnchor. destruct (extractRanking index a) as [|r]; [discriminate|].
  destruct (_ && _); [|discriminate]. now intros [= <-].
Qed.

Lemma eachAnchor_In (anchors : list anchor) (c : church) :
  forall k,
    In c (eachAnchor k anchors) <->
    exists i a, nth_error anchors i = Some a /\
                parseAnchor (k + i) a = Some c.
Proof.
  induction anchors as [|a0 rest IH]; intros k; simpl.
  - split; [intros [] | intros (i & a & H & _); now destruct i].
  - split.
    + intros Hin.
      assert (Hcase : parseAnchor k a0 = Some c \/ In c (eachAnchor (S k) rest)).
      { destruct (parseAnchor k a0) as [c0|];
          [destruct Hin as [->|Hin]; [now left | now right] | now right]. }
      destruct Hcase as [Hhere|Hlater].
      * exists 0%nat, a0. now rewrite Nat.add_0_r.
      * apply IH in Hlater as (i & a & Hnth & Hp).
        exists (S i), a. split; [exact Hnth|].
        now replace (k + S i)%nat with (S k + i)%nat by lia.
    + intros (i & a & Hnth & Hp). destruct i as [|i]; simpl in Hnth.
      * injection Hnth as ->. rewrite Nat.add_0_r in Hp. rewrite Hp. now left.
      * assert (Hlater : In c (eachAnchor (S k) rest)).
        { apply IH. exists i, a. split; [exact Hnth|].
          now replace (S k + i)%nat with (k + S i)%nat by lia. }
        destruct (parseAnchor k a0); [now right | exact Hlater].
Qed.

Lemma parseChurchesFromHTML_In (page : html) (yr : jsnumber) (c : church) :
  In c (parseChurchesFromHTML page yr) <->
  exists index a, nth_error page index = Some a /\
                  parseAnchor index a = Some c.
Proof.
  unfold parseChurchesFromHTML. rewrite Array_sort_In.
  apply (eachAnchor_In page c 0).
Qed.

(** C4, as the code has it.  Every record the extractor emits has a rank
    that is a positive integer; the rank is at most 100 or it is the
    1-based position of the record's anchor among the matched anchors of
    the page, so it never exceeds the larger of 100 and the number of
    anchors.  An emitted record whose anchor has no rank text (no
    candidate that is a pure integer at most 100) has the anchor's 1-based
    position as its rank. *)
Theorem ranking_positive_and_fallback (page : html) (yr : jsnumber) :
  (forall c, In c (parseChurchesFromHTML page yr) ->
     1 <= ranking c <= Z.max 100 (Z.of_nat (List.length page)) /\
     (ranking c <= 100 \/
      exists index a,
        nth_error page index = Some a /\ parseAnchor index a = Some c /\
        ranking c = Z.of_nat index + 1)) /\
  (forall index a c,
     nth_error page index = Some a -> parseAnchor index a = Some c ->
     noRankText a ->
     In c (parseChurchesFromHTML page yr) /\ ranking c = Z.of_nat index + 1).
Proof.
  split.
  - intros c Hin. apply parseChurchesFromHTML_In in Hin as (i & a & Hnth & Hp).
    pose proof (parseAnchor_ranking _ _ _ Hp) as Hr.
    destruct (extractRanking_cases i a) as (r & Hr' & Hcase).
    rewrite Hr in Hr'. injection Hr' as <-.
    assert (Hi : (i < List.length page)%nat)
      by (apply nth_error_Some; congruence).
    destruct Hcase as [Hsmall|Hpos].
    + split; [lia | now left].
    + split; [lia|]. right. now exists i, a.
  - intros i a c Hnth Hp Hno. split.
    + apply parseChurchesFromHTML_In. now exists i, a.
    + pose proof (parseAnchor_ranking _ _ _ Hp) as Hr.
      rewrite (extractRanking_fallback i a Hno) in Hr. now injection Hr.
Qed.

Lemma plainAnchor_noRankText : noRankText plainAnchor.
Proof.
  intros t Hin. simpl in Hin.
  destruct Hin as [<-|[<-|[<-|[]]]]; reflexivity.
Qed.

Lemma ranking_positive_and_fallback_witness :
  1 <= ranking sampleRecord
    <= Z.max 100 (Z.of_nat (List.length samplePage)) /\
  In sampleRecord (parseChurchesFromHTML samplePage NaN) /\
  ranking sampleRecord = Z.of_nat 0 + 1.
Proof.
  split.
  - apply (proj1 (ranking_positive_and_fallback samplePage NaN) sampleRecord).
    vm_compute. left. reflexivity.
  - apply (proj2 (ranking_positive_and_fallback samplePage NaN)
             0%nat plainAnchor sampleRecord).
    + reflexivity.
    + reflexivity.
    + exact plainAnchor_noRankText.
Defined.

(** C4 as the specification words it fails: on a page of 101 anchors
    without rank texts the last record has rank 101. *)
Lemma rank_above_100_counterexample :
  exists c,
    In c (parseChurchesFromHTML page101 NaN) /\
    ranking c = 101 /\
    ~ (1 <= ranking c <= 100).
Proof.
  exists (mkChurch "Example Org" "Location not found" "Pastor not found"
            None 101).
  split; [|split; [reflexivity | simpl; lia]].
  apply parseChurchesFromHTML_In. exists 100%nat, plainAnchor.
  split; reflexivity.
Qed.

(* ================================================================== *)
(** * The extractor: attendance *)
(* ================================================================== *)

Lemma attendanceStep_null (t : string) : attendanceStep None t = qualifying t.
Proof.
  unfold attendanceStep, qualifying, inAttendanceRange.
  destruct (matchNumber (trim t)) as [m|]; [|reflexivity]. simpl.
  destruct (parseInt m) as [|z]; simpl; [reflexivity|].
  now destruct (1000 <=? z), (z <=? 100000).
Qed.

Lemma qualifying_range (t : string) (n : Z) :
  qualifying t = Some n -> 1000 <= n <= 100000.
Proof.
  unfold qualifying, inAttendanceRange.
  destruct (matchNumber (trim t)) as [m|]; [|discriminate].
  destruct (parseInt m) as [|z]; simpl; [discriminate|].
  destruct (Z.leb_spec 1000 z), (Z.leb_spec z 100000); simpl;
    try discriminate.
  intros [= <-]. lia.
Qed.

(** Once set, the attendance is kept: [!attendance] is false. *)
Lemma attendanceStep_set (n : Z) (t : string) :
  n <> 0 -> attendanceStep (Some n) t = Some n.
Proof.
  intros Hn. unfold attendanceStep.
  destruct (matchNumber (trim t)); [|reflexivity]. simpl.
  now destruct (Z.eqb_spec n 0).
Qed.

Lemma fold_attendanceStep_set (n : Z) (texts : list string) :
  n <> 0 -> fold_left attendanceStep texts (Some n) = Some n.
Proof.
  intros Hn. induction texts as [|t texts IH]; simpl; [reflexivity|].
  now rewrite attendanceStep_set.
Qed.

Lemma extractAttendance_firstQualifying (texts : list string) :
  extractAttendance texts = firstQualifying texts.
Proof.
  unfold extractAttendance.
  induction texts as [|t texts IH]; simpl; [reflexivity|].
  rewrite attendanceStep_null.
  destruct (qualifying t) as [n|] eqn:E; [|exact IH].
  apply fold_attendanceStep_set.
  apply qualifying_range in E. lia.
Qed.

Lemma firstQualifying_Some (texts : list string) (n : Z) :
  firstQualifying texts = Some n <->
  exists before t after,
    texts = before ++ t :: after /\
    (forall u, In u before -> qualifying u = None) /\
    qualifying t = Some n.
Proof.
  induction texts as [|t0 texts IH]; simpl.
  - split; [discriminate|]. intros (before & t & after & H & _).
    now destruct before.
  - destruct (qualifying t0) as [n0|] eqn:E0.
    + split.
      * intros [= ->]. exists [], t0, texts. repeat split; auto.
        intros u [].
      * intros (before & t & after & Heq & Hnone & Ht).
        destruct before as [|b before]; simpl in Heq; injection Heq as <- ->.
        -- congruence.
        -- rewrite (Hnone t0 (or_introl eq_refl)) in E0. discriminate.
    + rewrite IH. split.
      * intros (before & t & after & -> & Hnone & Ht).
        exists (t0 :: before), t, after. repeat split; auto.
        intros u [<-|Hu]; auto.
      * intros (before & t & after & Heq & Hnone & Ht).
        destruct before as [|b before]; simpl in Heq; injection Heq as <- ->.
        -- congruence.
        -- exists before, t, after. repeat split; auto.
           intros u Hu. apply Hnone. now right.
Qed.

Lemma firstQualifying_None (texts : list string) :
  firstQualifying texts = None <->
  forall t, In t texts -> qualifying t = None.
Proof.
  induction texts as [|t0 texts IH]; simpl.
  - split; [intros _ t [] | reflexivity].
  - destruct (qualifying t0) as [n0|] eqn:E0.
    + split; [discriminate|]. intros H.
      rewrite (H t0 (or_introl eq_refl)) in E0. discriminate.
    + rewrite IH. split.
      * intros H t [<-|Ht]; auto.
      * intros H t Ht. apply H. now right.
Qed.

(** C5, as the code has it.  Every descendant text contributes at most
    one number: its first 3-to-6-digit run, when that run lies in
    [1000, 100000].  The attendance is the contribution of the first text
    of the scan that contributes one, later texts never replacing it, and
    it is null exactly when no text contributes. *)
Theorem attendance_first_contributing_text (texts : list string) :
  (forall n,
     extractAttendance texts = Some n <->
     exists before t after,
       texts = before ++ t :: after /\
       (forall u, In u before -> qualifying u = None) /\
       qualifying t = Some n) /\
  (extractAttendance texts = None <->
   forall t, In t texts -> qualifying t = None) /\
  (forall n, extractAttendance texts = Some n -> 1000 <= n <= 100000).
Proof.
  rewrite extractAttendance_firstQualifying. split; [|split].
  - intros n. apply firstQualifying_Some.
  - apply firstQualifying_None.
  - intros n Hn. apply firstQualifying_Some in Hn as (_ & t & _ & _ & _ & Ht).
    now apply qualifying_range in Ht.
Qed.

Lemma attendance_first_contributing_text_witness :
  extractAttendance sampleTexts = Some 2015 /\ 1000 <= 2015 <= 100000.
Proof.
  assert (H : extractAttendance sampleTexts = Some 2015).
  { apply (proj1 (attendance_first_contributing_text sampleTexts) 2015).
    exists ["abc"; "x 999 y"]%string, " 2015 Lakewood 43500"%string,
           ["52000"%string].
    split; [reflexivity|]. split; [|reflexivity].
    intros u [<-|[<-|[]]]; reflexivity. }
  split; [exact H|].
  exact (proj2 (proj2 (attendance_first_contributing_text sampleTexts)) 2015 H).
Defined.

(** C5 as the specification words it fails: the text holds the run 5000,
    a 3-to-6-digit number in [1000, 100000], yet only its first run, 123,
    is tried and the attendance stays null. *)
Lemma later_run_ignored_counterexample :
  extractAttendance twoNumbers = None /\
  runsFrom 0 None "123 5000" = ["123"; "5000"]%string /\
  firstQualifyingRun twoNumbers = Some 5000 /\
  extractAttendance twoNumbers <> firstQualifyingRun twoNumbers.
Proof. repeat split; discriminate. Qed.

(* ================================================================== *)
(** * The page loop *)
(* ================================================================== *)

Section LoopFacts.
Variable fetch : url -> error + response.
Variable yr : jsnumber.

Arguments parseChurchesFromHTML : simpl never.

(** A page is full, empty, or gives no records list. *)
Lemma page_cases (p : nat) :
  fullPage fetch yr p \/ emptyPage fetch yr p \/ pageChurchesOf fetch yr p = None.
Proof.
  unfold fullPage, emptyPage.
  destruct (pageChurchesOf fetch yr p) as [[|c cs]|].
  - right. now left.
  - left. exists (c :: cs). split; [reflexivity|discriminate].
  - right. now right.
Qed.

Lemma step_done (fuel p : nat) (cs : list church) (rs : list url) :
  (10 < p)%nat ->
  whileLoop fetch (S fuel) yr (atPage p cs rs) = (Return cs, rs).
Proof.
  intros Hp. simpl. apply Nat.leb_gt in Hp. now rewrite Hp.
Qed.

Lemma step_full (fuel p : nat) (cs : list church) (rs : list url) :
  (p <= 10)%nat -> fullPage fetch yr p ->
  whileLoop fetch (S fuel) yr (atPage p cs rs) =
  whileLoop fetch fuel yr
    (atPage (S p) (cs ++ recordsOf fetch yr p) (rs ++ [listingUrl yr p])).
Proof.
  intros Hp (cs' & Hpage & Hne). unfold recordsOf. rewrite Hpage.
  unfold pageChurchesOf in Hpage. simpl.
  apply Nat.leb_le in Hp. rewrite Hp.
  destruct (fetch (listingUrl yr p)) as [e|r]; [discriminate|].
  destruct (ok r); [|discriminate]. simpl.
  destruct (text r) as [e|markup]; [discriminate|].
  injection Hpage as Hpage. rewrite Hpage.
  destruct cs' as [|c cs']; [congruence|reflexivity].
Qed.

Lemma step_empty (fuel p : nat) (cs : list church) (rs : list url) :
  (p <= 10)%nat -> emptyPage fetch yr p ->
  whileLoop fetch (S (S fuel)) yr (atPage p cs rs) =
  (Return cs, rs ++ [listingUrl yr p]).
Proof.
  intros Hp Hpage. unfold emptyPage, pageChurchesOf in Hpage.
  cbn [whileLoop atPage hasMorePages page churches requests andb].
  apply Nat.leb_le in Hp. rewrite Hp.
  destruct (fetch (listingUrl yr p)) as [e|r]; [discriminate|].
  destruct (ok r); [|discriminate]. cbn [negb].
  destruct (text r) as [e|markup]; [discriminate|].
  injection Hpage as Hpage. rewrite Hpage. reflexivity.
Qed.

Lemma step_failed (fuel p : nat) (cs : list church) (rs : list url) :
  (p <= 10)%nat -> pageChurchesOf fetch yr p = None ->
  whileLoop fetch (S fuel) yr (atPage p cs rs) =
  if (p =? 1)%nat
  then (Throw (pageError fetch yr p), rs ++ [listingUrl yr p])
  else (Return cs, rs ++ [listingUrl yr p]).
Proof.
  intros Hp Hpage. unfold pageChurchesOf in Hpage. unfold pageError.
  cbn [whileLoop atPage hasMorePages page churches requests andb caught].
  apply Nat.leb_le in Hp. rewrite Hp. unfold caught. simpl.
  destruct (fetch (listingUrl yr p)) as [e|r]; [reflexivity|].
  destruct (ok r); simpl.
  - destruct (text r) as [e|markup]; [reflexivity|discriminate].
  - now destruct (p =? 1)%nat.
Qed.

(** [k] full pages in a row are collected one after the other. *)
Lemma loop_full_pages (k : nat) :
  forall j fuel cs rs,
    (j + k <= 10)%nat ->
    (forall q, (j < q <= j + k)%nat -> fullPage fetch yr q) ->
    whileLoop fetch (k + fuel) yr (atPage (S j) cs rs) =
    whileLoop fetch fuel yr
      (atPage (S (j + k))
         (cs ++ flat_map (recordsOf fetch yr) (seq (S j) k))
         (rs ++ map (listingUrl yr) (seq (S j) k))).
Proof.
  induction k as [|k IH]; intros j fuel cs rs Hle Hfull.
  - simpl. now rewrite !app_nil_r, Nat.add_0_r.
  - change (S k + fuel)%nat with (S (k + fuel)).
    rewrite step_full by (try apply Hfull; lia).
    rewrite IH by (try (intros q Hq; apply Hfull); lia).
    cbn [seq flat_map map]. rewrite <- !app_assoc.
    now replace (S j + k)%nat with (j + S k)%nat by lia.
Qed.
End LoopFacts.

Section RunFacts.
Variable fetch : url -> error + response.
Variable yr : jsnumber.

(** Pages [1..j] are full. *)
Let fullUpTo (j : nat) : Prop :=
  forall q, (1 <= q <= j)%nat -> fullPage fetch yr q.

Lemma urlsUpTo_S (j : nat) :
  urlsUpTo yr (S j) = urlsUpTo yr j ++ [listingUrl yr (S j)].
Proof. unfold urlsUpTo. now rewrite seq_S, map_app. Qed.

Lemma run_full_pages (j fuel : nat) :
  (j <= 10)%nat -> fullUpTo j ->
  whileLoop fetch (j + fuel) yr (atPage 1 [] []) =
  whileLoop fetch fuel yr
    (atPage (S j) (recordsUpTo fetch yr j) (urlsUpTo yr j)).
Proof.
  intros Hj Hfull.
  apply (loop_full_pages fetch yr j 0 fuel [] []); [lia|].
  intros q Hq. apply Hfull. lia.
Qed.

Lemma run_stops_at_empty (j fuel : nat) :
  (j < 10)%nat -> fullUpTo j -> emptyPage fetch yr (S j) ->
  (j + 2 <= fuel)%nat ->
  whileLoop fetch fuel yr (atPage 1 [] []) =
  (Return (recordsUpTo fetch yr j), urlsUpTo yr (S j)).
Proof.
  intros Hj Hfull Hempty Hfuel.
  replace fuel with (j + S (S (fuel - j - 2)))%nat by lia.
  rewrite run_full_pages by (auto; lia).
  rewrite step_empty by (auto; lia). now rewrite urlsUpTo_S.
Qed.

Lemma run_stops_at_failure (j fuel : nat) :
  (0 < j < 10)%nat -> fullUpTo j -> pageChurchesOf fetch yr (S j) = None ->
  (j + 1 <= fuel)%nat ->
  whileLoop fetch fuel yr (atPage 1 [] []) =
  (Return (recordsUpTo fetch yr j), urlsUpTo yr (S j)).
Proof.
  intros Hj Hfull Hnone Hfuel.
  replace fuel with (j + S (fuel - j - 1))%nat by lia.
  rewrite run_full_pages by (auto; lia).
  rewrite step_failed by (auto; lia).
  destruct (Nat.eqb_spec (S j) 1) as [Hone|_]; [lia|].
  now rewrite urlsUpTo_S.
Qed.

Lemma run_fails_on_first_page (fuel : nat) :
  pageChurchesOf fetch yr 1 = None -> (1 <= fuel)%nat ->
  whileLoop fetch fuel yr (atPage 1 [] []) =
  (Throw (pageError fetch yr 1), urlsUpTo yr 1).
Proof.
  intros Hnone Hfuel. destruct fuel as [|fuel]; [lia|].
  now rewrite step_failed by (auto; lia).
Qed.

Lemma run_reaches_cap (fuel : nat) :
  fullUpTo 10 -> (11 <= fuel)%nat ->
  whileLoop fetch fuel yr (atPage 1 [] []) =
  (Return (recordsUpTo fetch yr 10), urlsUpTo yr 10).
Proof.
  intros Hfull Hfuel.
  replace fuel with (10 + S (fuel - 11))%nat by lia.
  rewrite run_full_pages by (auto; lia).
  now rewrite step_done by lia.
Qed.

(** The full pages in front: all of the first [n], or [j] of them with
    page [j + 1] not full. *)
Lemma leading_full_pages (n : nat) :
  fullUpTo n \/
  exists j, (j < n)%nat /\ fullUpTo j /\
            (emptyPage fetch yr (S j) \/ pageChurchesOf fetch yr (S j) = None).
Proof.
  induction n as [|n [Hall|(j & Hj & Hfull & Hnext)]].
  - left. intros q Hq. lia.
  - destruct (page_cases fetch yr (S n)) as [Hf|Hrest].
    + left. intros q Hq.
      destruct (Nat.eq_dec q (S n)) as [->|]; [exact Hf | apply Hall; lia].
    + right. exists n. repeat split; auto.
  - right. exists j. repeat split; auto.
Qed.

(** What every run does, whatever the network answers. *)
Lemma run_outcome (fuel : nat) :
  (scrapeFuel <= fuel)%nat ->
  exists j k,
    (j <= 10)%nat /\ (1 <= k <= 10)%nat /\ (k = j \/ k = S j) /\
    fullUpTo j /\
    (whileLoop fetch fuel yr (atPage 1 [] []) =
       (Return (recordsUpTo fetch yr j), urlsUpTo yr k) \/
     (j = 0%nat /\
      whileLoop fetch fuel yr (atPage 1 [] []) =
        (Throw (pageError fetch yr 1), urlsUpTo yr k))).
Proof.
  unfold scrapeFuel. intros Hfuel.
  destruct (leading_full_pages 10) as [Hall|(j & Hj & Hfull & [Hempty|Hnone])].
  - exists 10%nat, 10%nat. repeat split; auto; try lia.
    left. now apply run_reaches_cap.
  - exists j, (S j). repeat split; auto; try lia.
    left. apply run_stops_at_empty; auto. lia.
  - exists j, (S j). repeat split; auto; try lia.
    destruct j as [|j].
    + right. split; [reflexivity|]. apply run_fails_on_first_page; auto. lia.
    + left. apply run_stops_at_failure; auto; lia.
Qed.

Lemma notOkPage_no_records (p : nat) :
  notOkPage fetch yr p ->
  pageChurchesOf fetch yr p = None /\
  exists r, fetch (listingUrl yr p) = inr r /\
            pageError fetch yr p = HttpError (status r) (statusText r).
Proof.
  intros (r & Hr & Hok). unfold pageChurchesOf, pageError.
  rewrite Hr, Hok. split; [reflexivity|]. now exists r.
Qed.
End RunFacts.

(* ================================================================== *)
(** * Properties of the page loop *)
(* ================================================================== *)

(** C6.  A non-success status on page 1 makes [scrapeYearData] throw the
    HTTP error of that response, after that one request.  A non-success
    status on a later page, reached after full pages only, ends the loop
    without an error: the records of the earlier pages are returned. *)
Theorem non_success_status_fatal_on_first_page_only
    (fetch : url -> error + response) (yr : jsnumber) :
  (notOkPage fetch yr 1 ->
   exists r,
     fetch (listingUrl yr 1) = inr r /\
     scrapeYearData fetch yr =
       (Throw (HttpError (status r) (statusText r)), urlsUpTo yr 1)) /\
  (forall j,
     (0 < j < 10)%nat ->
     (forall q, (1 <= q <= j)%nat -> fullPage fetch yr q) ->
     notOkPage fetch yr (S j) ->
     scrapeYearData fetch yr =
       (Return (recordsUpTo fetch yr j), urlsUpTo yr (S j))).
Proof.
  split.
  - intros Hbad.
    destruct (notOkPage_no_records fetch yr 1 Hbad) as (Hnone & r & Hr & He).
    exists r. split; [exact Hr|]. rewrite <- He.
    apply run_fails_on_first_page; [exact Hnone | unfold scrapeFuel; lia].
  - intros j Hj Hfull Hbad.
    destruct (notOkPage_no_records fetch yr (S j) Hbad) as (Hnone & _).
    apply run_stops_at_failure; auto. unfold scrapeFuel. lia.
Qed.

(** C7.  Whatever the network answers, [scrapeYearData] terminates (the
    eleven evaluations of the loop condition it is given are enough, and
    more change nothing) after fetching pages [1..k] in order, [k] at
    most 10.  It returns the records of pages [1..j], all of them
    non-empty, concatenated in page order, page [j + 1] being the last
    page fetched when one more was ([k = j + 1]); the one other outcome
    is the throw on page 1.  It stops at the first page without records:
    when page [j + 1] is empty after [j] full pages, no page after it is
    fetched and the records of pages [1..j] are returned. *)
Theorem page_loop_stops_within_ten_pages
    (fetch : url -> error + response) (yr : jsnumber) :
  (forall fuel, (scrapeFuel <= fuel)%nat ->
     whileLoop fetch fuel yr (atPage 1 [] []) = scrapeYearData fetch yr) /\
  (exists j k,
     (j <= 10)%nat /\ (1 <= k <= 10)%nat /\ (k = j \/ k = S j) /\
     (forall q, (1 <= q <= j)%nat -> fullPage fetch yr q) /\
     snd (scrapeYearData fetch yr) = urlsUpTo yr k /\
     (fst (scrapeYearData fetch yr) = Return (recordsUpTo fetch yr j) \/
      (j = 0%nat /\
       fst (scrapeYearData fetch yr) = Throw (pageError fetch yr 1)))) /\
  (forall j,
     (j < 10)%nat ->
     (forall q, (1 <= q <= j)%nat -> fullPage fetch yr q) ->
     emptyPage fetch yr (S j) ->
     scrapeYearData fetch yr =
       (Return (recordsUpTo fetch yr j), urlsUpTo yr (S j))).
Proof.
  split; [|split].
  - intros fuel Hfuel. unfold scrapeYearData.
    destruct (run_outcome fetch yr fuel Hfuel)
      as (j & k & Hj & Hk & Hjk & Hfull & Hres).
    destruct (leading_full_pages fetch yr 10)
      as [Hall|(j' & Hj' & Hfull' & [Hempty|Hnone])].
    + now rewrite !(run_reaches_cap fetch yr) by (auto; unfold scrapeFuel in *; lia).
    + now rewrite !(run_stops_at_empty fetch yr j')
        by (auto; unfold scrapeFuel in *; lia).
    + destruct j' as [|j'].
      * now rewrite !(run_fails_on_first_page fetch yr)
          by (auto; unfold scrapeFuel in *; lia).
      * now rewrite !(run_stops_at_failure fetch yr (S j'))
          by (auto; unfold scrapeFuel in *; lia).
  - destruct (run_outcome fetch yr scrapeFuel (Nat.le_refl _))
      as (j & k & Hj & Hk & Hjk & Hfull & Hres).
    exists j, k. change (scrapeYearData fetch yr)
      with (whileLoop fetch scrapeFuel yr (atPage 1 [] [])).
    split; [exact Hj|]. split; [exact Hk|]. split; [exact Hjk|].
    split; [exact Hfull|]. split.
    + destruct Hres as [->|[_ ->]]; reflexivity.
    + destruct Hres as [->|[-> ->]]; [now left | now right].
  - intros j Hj Hfull Hempty.
    apply run_stops_at_empty; auto. unfold scrapeFuel. lia.
Qed.

Lemma twoPagesThen404_full (yr : jsnumber) (q : nat) :
  (1 <= q <= 2)%nat -> fullPage twoPagesThen404 yr q.
Proof.
  intros Hq. assert (Hcase : q = 1%nat \/ q = 2%nat) by lia.
  destruct Hcase as [->| ->]; eexists; (split; [reflexivity|discriminate]).
Qed.

Lemma twoPagesThenEmpty_full (yr : jsnumber) (q : nat) :
  (1 <= q <= 2)%nat -> fullPage twoPagesThenEmpty yr q.
Proof.
  intros Hq. assert (Hcase : q = 1%nat \/ q = 2%nat) by lia.
  destruct Hcase as [->| ->]; eexists; (split; [reflexivity|discriminate]).
Qed.

Lemma non_success_status_fatal_on_first_page_only_witness :
  (exists r,
     firstPage503 (listingUrl (Num 2020) 1) = inr r /\
     scrapeYearData firstPage503 (Num 2020) =
       (Throw (HttpError (status r) (statusText r)),
        urlsUpTo (Num 2020) 1)) /\
  scrapeYearData twoPagesThen404 (Num 2020) =
    (Return (recordsUpTo twoPagesThen404 (Num 2020) 2),
     urlsUpTo (Num 2020) 3).
Proof.
  split.
  - apply (proj1 (non_success_status_fatal_on_first_page_only
                    firstPage503 (Num 2020))).
    eexists. split; reflexivity.
  - apply (proj2 (non_success_status_fatal_on_first_page_only
                    twoPagesThen404 (Num 2020)) 2%nat).
    + lia.
    + apply twoPagesThen404_full.
    + eexists. split; reflexivity.
Defined.

Lemma page_loop_stops_within_ten_pages_witness :
  scrapeYearData twoPagesThenEmpty (Num 2020) =
    (Return (recordsUpTo twoPagesThenEmpty (Num 2020) 2),
     urlsUpTo (Num 2020) 3) /\
  whileLoop twoPagesThenEmpty 40 (Num 2020) (atPage 1 [] []) =
    scrapeYearData twoPagesThenEmpty (Num 2020).
Proof.
  split.
  - apply (proj2 (proj2 (page_loop_stops_within_ten_pages
                           twoPagesThenEmpty (Num 2020))) 2%nat).
    + lia.
    + apply twoPagesThenEmpty_full.
    + reflexivity.
  - apply (proj1 (page_loop_stops_within_ten_pages
                    twoPagesThenEmpty (Num 2020)) 40%nat).
    unfold scrapeFuel. lia.
Defined.

(* ================================================================== *)
(** * GET /api/get-data *)
(* ================================================================== *)

Section GetDataFacts.
Variable JSON_parse : string -> error + jsonValue.

Lemma loadChurchData_read_failure (fs : fileSystem) (now : Z) (c : loadCache) :
  cacheIsFresh now c = false -> readFails JSON_parse fs ->
  loadChurchData JSON_parse fs now c = (None, c).
Proof.
  intros Hstale [Hacc Hfail]. unfold loadChurchData, loadTry.
  rewrite Hstale, Hacc. simpl.
  destruct Hfail as [(e & ->)|(content & e & -> & ->)]; reflexivity.
Qed.

Lemma getDataTry_returns (fs : fileSystem) (now : Z) (c : loadCache) :
  exists res c',
    getDataTry JSON_parse fs now c = (inr res, c') /\
    (httpStatus res = 200 \/ res = notFound).
Proof.
  unfold getDataTry.
  destruct (loadChurchData JSON_parse fs now c) as [[[|p]|] c'].
  - exists notFound, c'. split; [reflexivity | now right].
  - destruct (consolidatedData p) as [cd|].
    + eexists _, c'. split; [reflexivity | now left].
    + exists notFound, c'. split; [reflexivity | now right].
  - exists notFound, c'. split; [reflexivity | now right].
Qed.
End GetDataFacts.

(** C8, as the code has it.  When the file cannot be read or parsed (the
    cached copy not being fresh), [loadChurchData] catches the failure
    and returns null, and GET /api/get-data answers 404, leaving the
    cache as it was.  The handler answers 200 or 404 in every case: no
    failure of the load reaches its 500 branch. *)
Theorem read_failure_answered_not_found
    (JSON_parse : string -> error + jsonValue)
    (fs : fileSystem) (now : Z) (c : loadCache) :
  (cacheIsFresh now c = false -> readFails JSON_parse fs ->
   getData JSON_parse fs now c = (notFound, c)) /\
  (httpStatus (fst (getData JSON_parse fs now c)) = 200 \/
   httpStatus (fst (getData JSON_parse fs now c)) = 404).
Proof.
  split.
  - intros Hstale Hfail. unfold getData, getDataTry.
    now rewrite (loadChurchData_read_failure JSON_parse fs now c Hstale Hfail).
  - unfold getData.
    destruct (getDataTry_returns JSON_parse fs now c)
      as (res & c' & -> & [H200| ->]); simpl; [now left | now right].
Qed.

Lemma unreadableFile_readFails (parse : string -> error + jsonValue) :
  readFails parse unreadableFile.
Proof. split; [reflexivity|]. left. now eexists. Qed.

Lemma read_failure_answered_not_found_witness :
  getData rejectAll unreadableFile 0 nothingLoaded = (notFound, nothingLoaded).
Proof.
  apply (proj1 (read_failure_answered_not_found
                  rejectAll unreadableFile 0 nothingLoaded)).
  - reflexivity.
  - exact (unreadableFile_readFails rejectAll).
Defined.

(** C8 as the specification words it fails: a file that cannot be read,
    and one whose content does not parse, are answered with 404, not with
    a 500-class status. *)
Lemma read_failure_not_500_counterexample :
  readFails rejectAll unreadableFile /\
  httpStatus (fst (getData rejectAll unreadableFile 0 nothingLoaded)) = 404 /\
  readFails rejectAll garbledFile /\
  httpStatus (fst (getData rejectAll garbledFile 0 nothingLoaded)) = 404 /\
  ~ (500 <= httpStatus (fst (getData rejectAll unreadableFile 0 nothingLoaded))
     <= 599).
Proof.
  split; [apply unreadableFile_readFails|]. split; [reflexivity|].
  split.
  { split; [reflexivity|]. right. now exists "{ not json"%string,
      (Rejection "SyntaxError"). }
  split; [reflexivity|]. simpl. lia.
Qed.

(* ================================================================== *)
(** * GET /api/scrape-year/:year *)
(* ================================================================== *)

Section ScrapeYearFacts.
Variable fetch : url -> error + response.

(** Every scrape starts with the request of page 1. *)
Lemma scrape_first_request (yr : jsnumber) :
  exists rest, snd (scrapeYearData fetch yr) = listingUrl yr 1 :: rest.
Proof.
  destruct (run_outcome fetch yr scrapeFuel (Nat.le_refl _))
    as (j & k & _ & Hk & _ & _ & Hres).
  change (scrapeYearData fetch yr)
    with (whileLoop fetch scrapeFuel yr (atPage 1 [] [])).
  assert (Hlog : snd (whileLoop fetch scrapeFuel yr (atPage 1 [] []))
                 = urlsUpTo yr k)
    by (destruct Hres as [->|[_ ->]]; reflexivity).
  rewrite Hlog. destruct k as [|k]; [lia|].
  unfold urlsUpTo. simpl. now eexists.
Qed.

Lemma scrapeAndCache_status (now : Z) (yr : jsnumber)
    (dataCache : JsMap cacheEntry) :
  yearStatus (fst (fst (scrapeAndCache fetch now yr dataCache))) <> 400 /\
  snd (scrapeAndCache fetch now yr dataCache) = snd (scrapeYearData fetch yr).
Proof.
  unfold scrapeAndCache.
  destruct (scrapeYearData fetch yr) as [[cs|e|] reqs]; simpl;
    (split; [discriminate|reflexivity]).
Qed.

Lemma serveYear_status (now : Z) (yr : jsnumber)
    (dataCache : JsMap cacheEntry) :
  yearStatus (fst (fst (serveYear fetch now yr dataCache))) <> 400.
Proof.
  unfold serveYear.
  destruct (Map_get dataCache (cacheKey yr)) as [cached|];
    [destruct (_ <? _); [simpl; discriminate|]|];
    apply scrapeAndCache_status.
Qed.

Lemma serveYear_miss (now : Z) (yr : jsnumber)
    (dataCache : JsMap cacheEntry) :
  noFreshEntry now yr dataCache ->
  serveYear fetch now yr dataCache = scrapeAndCache fetch now yr dataCache.
Proof.
  unfold noFreshEntry, serveYear.
  destruct (Map_get dataCache (cacheKey yr)) as [cached|]; [|reflexivity].
  intros Hold. destruct (Z.ltb_spec (now - timestamp cached) CACHE_DURATION);
    [lia|reflexivity].
Qed.
End ScrapeYearFacts.

(** C9.  The route answers 400 exactly when the year parameter parses to
    a number below 2015 or above 2024.  A parameter that parses to [NaN]
    is not answered 400: the request goes on as for a year in range, with
    [NaN] as the year, and unless the per-year cache holds a fresh entry
    under its key, [scrapeYearData(NaN)] runs, its first request being
    page 1 of the listing of [NaN]. *)
Theorem year_guard_lets_NaN_through
    (fetch : url -> error + response) (now : Z) (param : string)
    (dataCache : JsMap cacheEntry) :
  (yearStatus (fst (fst (scrapeYearRoute fetch now param dataCache))) = 400
   <-> exists y, parseInt param = Num y /\ (y < 2015 \/ 2024 < y)) /\
  (parseInt param = NaN ->
   yearStatus (fst (fst (scrapeYearRoute fetch now param dataCache))) <> 400 /\
   scrapeYearRoute fetch now param dataCache =
     serveYear fetch now NaN dataCache /\
   (noFreshEntry now NaN dataCache ->
    scrapeYearRoute fetch now param dataCache =
      scrapeAndCache fetch now NaN dataCache /\
    exists rest,
      snd (scrapeYearRoute fetch now param dataCache) =
        listingUrl NaN 1 :: rest)).
Proof.
  unfold scrapeYearRoute. split.
  - destruct (parseInt param) as [|y]; simpl.
    + split.
      * intros H. now apply serveYear_status in H.
      * intros (y & Hy & _). discriminate.
    + destruct (Z.ltb_spec y 2015) as [Hlo|Hlo]; simpl.
      * split; [|reflexivity]. intros _. exists y. split; [reflexivity|lia].
      * destruct (Z.ltb_spec 2024 y) as [Hhi|Hhi]; simpl.
        -- split; [|reflexivity]. intros _. exists y. split; [reflexivity|lia].
        -- split.
           ++ intros H. now apply serveYear_status in H.
           ++ intros (y' & [= <-] & Hy). lia.
  - intros ->. simpl. split; [apply serveYear_status|].
    split; [reflexivity|]. intros Hmiss.
    rewrite (serveYear_miss fetch now NaN dataCache Hmiss).
    split; [reflexivity|].
    destruct (scrapeAndCache_status fetch now NaN dataCache) as [_ ->].
    apply scrape_first_request.
Qed.

Lemma year_guard_lets_NaN_through_witness :
  yearStatus (fst (fst (scrapeYearRoute firstPage503 0 "abc" []))) <> 400 /\
  scrapeYearRoute firstPage503 0 "abc" [] = serveYear firstPage503 0 NaN [] /\
  exists rest,
    snd (scrapeYearRoute firstPage503 0 "abc" []) = listingUrl NaN 1 :: rest.
Proof.
  destruct (proj2 (year_guard_lets_NaN_through firstPage503 0 "abc" [])
              eq_refl) as (Hstatus & Hserve & Hscrape).
  split; [exact Hstatus|]. split; [exact Hserve|].
  apply Hscrape. exact I.
Defined.

(* ================================================================== *)
(** * More on the consolidator *)
(* ================================================================== *)

Section HeaderFacts.
Import ServerJs.
Implicit Types (m : JsMap entity) (c : church) (n : string).

Lemma addChurch_headerAt yr m c n :
  headerAt (addChurch yr m c) n =
  match headerAt m n with
  | Some h => Some h
  | None => if named n c then Some (headerOf c) else None
  end.
Proof.
  unfold headerAt, named.
  destruct (String.eqb_spec (name c) n) as [<-|Hne].
  - rewrite addChurch_get_same. now destruct (Map_get m (name c)).
  - rewrite addChurch_get_other by congruence. now destruct (Map_get m n).
Qed.

Lemma addYear_headerAt entry m n :
  headerAt (addYear m entry) n =
  match headerAt m n with
  | Some h => Some h
  | None => option_map headerOf (find (named n) (snd entry))
  end.
Proof.
  unfold addYear. destruct entry as [yr cs]. simpl. revert m.
  induction cs as [|c cs IH]; intros m; simpl.
  - now destruct (headerAt m n).
  - rewrite IH, addChurch_headerAt.
    destruct (headerAt m n); [reflexivity|]. now destruct (named n c).
Qed.

Lemma find_named_app n (l1 l2 : list church) :
  find (named n) (l1 ++ l2) =
  match find (named n) l1 with
  | Some c => Some c
  | None => find (named n) l2
  end.
Proof.
  induction l1 as [|c l1 IH]; simpl; [reflexivity|].
  now destruct (named n c).
Qed.

Lemma fold_addYear_headerAt yd m n :
  headerAt (fold_left addYear yd m) n =
  match headerAt m n with
  | Some h => Some h
  | None => option_map headerOf (firstRecord n yd)
  end.
Proof.
  unfold firstRecord, allRecords. revert m.
  induction yd as [|entry yd IH]; intros m; simpl.
  - now destruct (headerAt m n).
  - rewrite IH, addYear_headerAt, find_named_app.
    destruct (headerAt m n); [reflexivity|].
    now destruct (find (named n) (snd entry)).
Qed.

Lemma collect_headerAt yd n :
  headerAt (collect yd) n = option_map headerOf (firstRecord n yd).
Proof. exact (fold_addYear_headerAt yd [] n). Qed.
End HeaderFacts.

Lemma values_names (m : JsMap entity) :
  keyedByName m -> map e_name (Map_values m) = map fst m.
Proof.
  unfold Map_values. induction m as [|[k e] m IH]; intros Hk; simpl.
  - reflexivity.
  - rewrite (Hk k e (or_introl eq_refl)). f_equal. apply IH.
    intros k' e' Hin. apply Hk. now right.
Qed.

Lemma kept_names_NoDup (keep : entity -> bool) (l : list entity) :
  NoDup (map e_name l) -> NoDup (map e_name (filter keep l)).
Proof.
  induction l as [|e l IH]; simpl; intros Hnd; [constructor|].
  inversion Hnd as [|? ? Hfresh Hrest]; subst.
  destruct (keep e); simpl; [|now apply IH].
  constructor; [|now apply IH].
  intros Hin. apply Hfresh.
  apply in_map_iff in Hin as (e' & Hname & Hin).
  apply filter_In in Hin as [Hin _].
  apply in_map_iff. now exists e'.
Qed.

Lemma consolidate_names_NoDup (yd : yearlyData) :
  NoDup (map e_name (ServerJs.consolidateChurchData yd)).
Proof.
  unfold ServerJs.consolidateChurchData.
  eapply Permutation_NoDup.
  - apply Permutation_sym, Permutation_map, Array_sort_perm.
  - rewrite map_map. simpl.
    apply kept_names_NoDup.
    destruct (collect_invariant yd) as [Hnd Hk].
    now rewrite (values_names _ Hk).
Qed.

Lemma named_entities_NoDup (n : string) (l : list entity) :
  NoDup (map e_name l) ->
  (List.length (filter (fun e => String.eqb (e_name e) n) l) <= 1)%nat.
Proof.
  induction l as [|e l IH]; simpl; intros Hnd; [lia|].
  inversion Hnd as [|? ? Hfresh Hrest]; subst.
  destruct (String.eqb_spec (e_name e) n) as [Heq|Hne]; [|now apply IH].
  assert (Hnone : filter (fun e' => String.eqb (e_name e') n) l = []).
  { destruct (filter _ l) as [|e' l'] eqn:E; [reflexivity|].
    exfalso. apply Hfresh.
    assert (Hin : In e' (filter (fun e' => String.eqb (e_name e') n) l))
      by (rewrite E; now left).
    apply filter_In in Hin as [Hin Hn]. apply String.eqb_eq in Hn.
    apply in_map_iff. exists e'. split; [congruence|exact Hin]. }
  rewrite Hnone. simpl. lia.
Qed.

(** X1.  The output holds one entity per name: the names of its entities
    are pairwise distinct, so at most one entity of the output bears a
    given name. *)
Theorem consolidate_one_entity_per_name (yd : yearlyData) :
  NoDup (map e_name (ServerJs.consolidateChurchData yd)) /\
  forall n,
    (List.length
       (filter (fun e => String.eqb (e_name e) n)
          (ServerJs.consolidateChurchData yd)) <= 1)%nat.
Proof.
  split; [apply consolidate_names_NoDup|].
  intros n. apply named_entities_NoDup, consolidate_names_NoDup.
Qed.

(** X2.  The series of every output entity holds the points of the
    records bearing the entity's name, each once and no other: it is a
    rearrangement of them, year, attendance and ranking kept together. *)
Theorem series_rearranges_the_records (yd : yearlyData) :
  Forall (fun e => Permutation (data e) (seriesOf (e_name e) yd))
         (ServerJs.consolidateChurchData yd).
Proof.
  apply Forall_forall. intros e Hin.
  destruct (consolidate_series yd e Hin) as [-> _].
  apply Array_sort_perm.
Qed.

(** X3.  The location and the pastor of every output entity are those of
    the first record bearing its name, in the order of the entries; the
    later records of the name leave them as they are. *)
Theorem entity_keeps_first_location_and_pastor (yd : yearlyData) :
  Forall (fun e =>
            exists c,
              firstRecord (e_name e) yd = Some c /\
              e_location e = location c /\ e_pastor e = pastor c)
         (ServerJs.consolidateChurchData yd).
Proof.
  apply Forall_forall. intros e Hin.
  apply consolidate_In in Hin as (e0 & Hval & _ & ->). simpl.
  apply collect_values in Hval.
  pose proof (collect_headerAt yd (e_name e0)) as Hh.
  unfold headerAt in Hh. rewrite Hval in Hh.
  destruct (firstRecord (e_name e0) yd) as [c|]; [|discriminate].
  exists c. injection Hh as Hl Hp. auto.
Qed.

Section SortedInput.
Context {A : Type}.
Variable key : A -> Z.

(** Sorting an array already in order leaves it as it is. *)
Lemma Array_sort_in_order (l : list A) :
  StronglySorted (fun a b => key a <= key b) l ->
  Array_sort (fun a b => key a - key b) l = l.
Proof.
  induction 1 as [|x l Hs IH Hall]; simpl; [reflexivity|].
  rewrite IH. destruct l as [|y l']; simpl; [reflexivity|].
  inversion Hall as [|? ? Hxy _]; subst.
  destruct (Z.ltb_spec 0 (key x - key y)); [lia|reflexivity].
Qed.

Lemma StronglySorted_by_key_app (l1 l2 : list A) :
  StronglySorted (fun a b => key a <= key b) l1 ->
  StronglySorted (fun a b => key a <= key b) l2 ->
  (forall a b, In a l1 -> In b l2 -> key a <= key b) ->
  StronglySorted (fun a b => key a <= key b) (l1 ++ l2).
Proof.
  induction 1 as [|x l1 Hs IH Hall]; intros H2 Hcross; simpl; [exact H2|].
  constructor.
  - apply IH; [exact H2|]. intros a b Ha Hb. apply Hcross; [now right|exact Hb].
  - apply Forall_app. split; [exact Hall|].
    apply Forall_forall. intros b Hb. apply Hcross; [now left|exact Hb].
Qed.
End SortedInput.

Lemma seriesOf_year_In (n : string) (yd : yearlyData) (p : point) :
  In p (seriesOf n yd) -> In (year p) (map fst yd).
Proof.
  unfold seriesOf. intros Hin.
  apply in_flat_map in Hin as (entry & Hentry & Hp).
  apply in_map_iff in Hp as (c & <- & _). simpl.
  now apply in_map.
Qed.

Lemma same_year_points_sorted (yr : Z) (cs : list church) :
  StronglySorted (fun a b => year a <= year b) (map (pointOf yr) cs).
Proof.
  induction cs as [|c cs IH]; simpl; constructor; [exact IH|].
  apply Forall_forall. intros p Hp.
  apply in_map_iff in Hp as (c' & <- & _). simpl. lia.
Qed.

Lemma seriesOf_in_order (n : string) (yd : yearlyData) :
  StronglySorted Z.le (map fst yd) ->
  StronglySorted (fun a b => year a <= year b) (seriesOf n yd).
Proof.
  unfold seriesOf.
  induction yd as [|[yr cs] yd IH]; simpl; intros Hs; [constructor|].
  inversion Hs as [|? ? Hrest Hall]; subst.
  apply StronglySorted_by_key_app.
  - apply same_year_points_sorted.
  - now apply IH.
  - intros a b Ha Hb. apply in_map_iff in Ha as (c & <- & _). simpl.
    rewrite Forall_forall in Hall. apply Hall.
    now apply (seriesOf_year_In n yd b).
Qed.

(** X4.  When the entries come in ascending order of year, as
    [Object.entries] gives the integer keys of an object, the sort by
    year changes nothing: the series of every output entity lists the
    points of its records in the order of the input, those of one year
    in the order of that year's array. *)
Theorem series_in_input_order (yd : yearlyData) :
  StronglySorted Z.le (map fst yd) ->
  Forall (fun e => data e = seriesOf (e_name e) yd)
         (ServerJs.consolidateChurchData yd).
Proof.
  intros Hs. apply Forall_forall. intros e Hin.
  destruct (consolidate_series yd e Hin) as [-> _].
  apply (Array_sort_in_order year). now apply seriesOf_in_order.
Qed.

Lemma threeYears_ascending : StronglySorted Z.le (map fst threeYears).
Proof.
  simpl. repeat (constructor; [|repeat constructor; lia]). constructor.
Qed.

Lemma series_in_input_order_witness :
  Forall (fun e => data e = seriesOf (e_name e) threeYears)
         (ServerJs.consolidateChurchData threeYears).
Proof.
  apply (series_in_input_order threeYears). exact threeYears_ascending.
Defined.

Lemma seriesOf_length (n : string) (yd : yearlyData) :
  List.length (seriesOf n yd) =
  List.length (filter (named n) (allRecords yd)).
Proof.
  unfold seriesOf, allRecords.
  induction yd as [|[yr cs] yd IH]; simpl; [reflexivity|].
  now rewrite filter_app, !length_app, length_map, IH.
Qed.

(** A record bears at most one of pairwise distinct names. *)
Lemma bearsOneOf_NoDup (ns : list string) (c : church) :
  NoDup ns -> (bearsOneOf ns c <= 1)%nat.
Proof.
  unfold bearsOneOf.
  induction ns as [|n ns IH]; simpl; intros Hnd; [lia|].
  inversion Hnd as [|? ? Hfresh Hrest]; subst.
  destruct (named n c) eqn:E; [|now apply IH].
  apply String.eqb_eq in E. subst n.
  assert (Hnone : filter (fun n => named n c) ns = []).
  { destruct (filter _ ns) as [|n' l'] eqn:E'; [reflexivity|].
    exfalso. apply Hfresh.
    assert (Hin : In n' (filter (fun n => named n c) ns))
      by (rewrite E'; now left).
    apply filter_In in Hin as [Hin Hn]. apply String.eqb_eq in Hn.
    now rewrite Hn. }
  rewrite Hnone. simpl. lia.
Qed.

(** The records bearing one of the names [ns], counted name by name or
    record by record. *)
Lemma count_by_name_or_by_record (ns : list string) (rs : list church) :
  list_sum (map (fun n => List.length (filter (named n) rs)) ns) =
  list_sum (map (bearsOneOf ns) rs).
Proof.
  unfold bearsOneOf. revert rs.
  induction ns as [|n ns IH]; intros rs; simpl.
  - induction rs as [|c rs IHrs]; simpl; [reflexivity|exact IHrs].
  - rewrite IH. clear IH.
    induction rs as [|c rs IHrs]; simpl; [reflexivity|].
    destruct (named n c); simpl; lia.
Qed.

Lemma records_of_distinct_names (ns : list string) (rs : list church) :
  NoDup ns ->
  (list_sum (map (fun n => List.length (filter (named n) rs)) ns)
   <= List.length rs)%nat.
Proof.
  intros Hnd. rewrite count_by_name_or_by_record.
  induction rs as [|c rs IH]; simpl; [lia|].
  pose proof (bearsOneOf_NoDup ns c Hnd). lia.
Qed.

Lemma three_points_each (yd : yearlyData) (out : list entity) :
  (forall e, In e out -> In e (ServerJs.consolidateChurchData yd)) ->
  (3 * List.length out
   <= list_sum (map (fun n => List.length (filter (named n) (allRecords yd)))
                    (map e_name out)))%nat.
Proof.
  induction out as [|e out IH]; simpl; intros Hsub; [lia|].
  assert (Hin : In e (ServerJs.consolidateChurchData yd))
    by (apply Hsub; now left).
  pose proof (proj1 (appears_iff_recordCount yd (e_name e))
                (ex_intro _ e (conj Hin eq_refl))) as Hcount.
  unfold recordCount in Hcount. rewrite seriesOf_length in Hcount.
  assert (IH' := IH (fun e' He' => Hsub e' (or_intror He'))). lia.
Qed.

(** X5.  Every entity of the output stands for three records or more and
    no record counts for two entities: the output has at most a third as
    many entities as the input has records.  An input of fewer than
    three records, the empty mapping among them, gives the empty list. *)
Theorem consolidate_size (yd : yearlyData) :
  (3 * List.length (ServerJs.consolidateChurchData yd)
   <= List.length (allRecords yd))%nat.
Proof.
  eapply Nat.le_trans; [apply (three_points_each yd); auto|].
  apply records_of_distinct_names, consolidate_names_NoDup.
Qed.

(* ================================================================== *)
(** * More on the extractor *)
(* ================================================================== *)

Section StableSort.
Context {A : Type}.
Variable key : A -> Z.

(** Inserting an element never carries it over an element of its own
    key. *)
Lemma sort_insert_same_key (r : Z) (x : A) (l : list A) :
  filter (fun a => key a =? r) (sort_insert (fun a b => key a - key b) x l) =
  filter (fun a => key a =? r) (x :: l).
Proof.
  induction l as [|y l IH]; [reflexivity|].
  cbn [sort_insert].
  destruct (Z.ltb_spec 0 (key x - key y)) as [Hgt|Hle]; [|reflexivity].
  cbn [filter]. rewrite IH. cbn [filter].
  destruct (Z.eqb_spec (key x) r), (Z.eqb_spec (key y) r);
    try reflexivity; lia.
Qed.

Lemma Array_sort_same_key (r : Z) (l : list A) :
  filter (fun a => key a =? r) (Array_sort (fun a b => key a - key b) l) =
  filter (fun a => key a =? r) l.
Proof.
  induction l as [|x l IH]; [reflexivity|].
  cbn [Array_sort fold_right]. fold (Array_sort (fun a b => key a - key b) l).
  rewrite sort_insert_same_key. cbn [filter]. now rewrite IH.
Qed.
End StableSort.

(** X6.  The records of a page are returned in ascending order of rank,
    and records of one rank keep the order of their anchors in the
    document. *)
Theorem extractor_output_sorted_by_rank (page : html) (yr : jsnumber) :
  StronglySorted (fun a b => ranking a <= ranking b)
    (parseChurchesFromHTML page yr) /\
  forall r,
    filter (fun c => ranking c =? r) (parseChurchesFromHTML page yr) =
    filter (fun c => ranking c =? r) (eachAnchor 0 page).
Proof.
  unfold parseChurchesFromHTML. split.
  - apply (Array_sort_sorted ranking).
  - intros r. apply (Array_sort_same_key ranking).
Qed.

(** A record is pushed for an anchor exactly when the anchor has a name:
    the rank is never what holds a record back. *)
Lemma parseAnchor_emits (index : nat) (a : anchor) :
  if hasName a
  then exists c, parseAnchor index a = Some c /\ name c = extractName a
  else parseAnchor index a = None.
Proof.
  unfold hasName, parseAnchor.
  destruct (extractRanking_cases index a) as (r & -> & Hr).
  assert (Hnz : (r =? 0) = false) by (apply Z.eqb_neq; lia).
  rewrite Hnz. destruct (isEmpty (extractName a)); simpl.
  - reflexivity.
  - eexists. split; reflexivity.
Qed.

Lemma eachAnchor_names (anchors : list anchor) :
  forall k,
    map name (eachAnchor k anchors) =
    map extractName (filter hasName anchors).
Proof.
  induction anchors as [|a rest IH]; intros k; simpl; [reflexivity|].
  pose proof (parseAnchor_emits k a) as Hemit.
  destruct (hasName a).
  - destruct Hemit as (c & -> & Hname). simpl. now rewrite Hname, IH.
  - rewrite Hemit. apply IH.
Qed.

(** X7.  The page gives one record for every anchor that has a name (its
    own text or, failing that, the first heading of its container) and
    none for the others: the names of the records are the names of these
    anchors, and there are never more records than anchors. *)
Theorem one_record_per_named_anchor (page : html) (yr : jsnumber) :
  Permutation (map name (parseChurchesFromHTML page yr))
              (map extractName (filter hasName page)) /\
  (List.length (parseChurchesFromHTML page yr) <= List.length page)%nat.
Proof.
  assert (Hperm : Permutation (map name (parseChurchesFromHTML page yr))
                    (map extractName (filter hasName page))).
  { unfold parseChurchesFromHTML. rewrite <- (eachAnchor_names page 0).
    apply Permutation_map, Array_sort_perm. }
  split; [exact Hperm|].
  apply Permutation_length in Hperm. rewrite !length_map in Hperm.
  rewrite Hperm. apply filter_length_le.
Qed.

Lemma last_after_head {A : Type} (x d : A) (l : list A) :
  last (x :: l) d = last l x.
Proof.
  revert x d. induction l as [|y l IH]; intros x d; [reflexivity|].
  change (last (x :: y :: l) d) with (last (y :: l) d).
  now rewrite (IH y d), (IH y x).
Qed.

Lemma last_default_or_member {A : Type} (d : A) (l : list A) :
  (l = [] /\ last l d = d) \/ In (last l d) l.
Proof.
  induction l as [|x l IH]; [now left|]. right.
  destruct l as [|y l]; [now left|].
  change (last (x :: y :: l) d) with (last (y :: l) d).
  destruct IH as [[Hnil _]|Hin]; [discriminate|now right].
Qed.

Lemma locationPastorStep_location (st : string * string) (t : string) :
  fst (locationPastorStep st t) =
  if isLocationText (trim t) then trim t else fst st.
Proof. reflexivity. Qed.

Lemma locationPastorStep_pastor (st : string * string) (t : string) :
  snd (locationPastorStep st t) =
  match pastorOf (trim t) with Some p => p | None => snd st end.
Proof.
  unfold locationPastorStep, pastorOf. cbn [snd].
  destruct (includes "-" (trim t) && (String.length (trim t) <? 100)%nat);
    [|reflexivity].
  now destruct (negb (isEmpty (trim (lastPart (trim t))))
                && negb (includes "," (trim (lastPart (trim t))))
                && (String.length (trim (lastPart (trim t))) <? 50)%nat).
Qed.

Lemma locationCandidates_cons (t : string) (texts : list string) :
  locationCandidates (t :: texts) =
  if isLocationText (trim t)
  then trim t :: locationCandidates texts
  else locationCandidates texts.
Proof. reflexivity. Qed.

Lemma pastorCandidates_cons (t : string) (texts : list string) :
  pastorCandidates (t :: texts) =
  match pastorOf (trim t) with
  | Some p => p :: pastorCandidates texts
  | None => pastorCandidates texts
  end.
Proof.
  unfold pastorCandidates. cbn [flat_map].
  now destruct (pastorOf (trim t)).
Qed.

(** The two variables of the scan end as the last candidates met. *)
Lemma scan_location_pastor (texts : list string) :
  forall st,
    fold_left locationPastorStep texts st =
    (last (locationCandidates texts) (fst st),
     last (pastorCandidates texts) (snd st)).
Proof.
  induction texts as [|t texts IH]; intros st.
  - now destruct st.
  - cbn [fold_left].
    rewrite IH, locationPastorStep_location, locationPastorStep_pastor.
    rewrite locationCandidates_cons, pastorCandidates_cons.
    f_equal.
    + destruct (isLocationText (trim t)); [|reflexivity].
      now rewrite last_after_head.
    + destruct (pastorOf (trim t)) as [p|]; [|reflexivity].
      now rewrite last_after_head.
Qed.

(** The fields of the record pushed for an anchor. *)
Lemma parseAnchor_fields (index : nat) (a : anchor) (c : church) :
  parseAnchor index a = Some c ->
  name c = extractName a /\ isEmpty (extractName a) = false /\
  location c =
    orElse (last (locationCandidates (descendantTexts a)) EmptyString)
           "Location not found" /\
  pastor c =
    orElse (last (pastorCandidates (descendantTexts a)) EmptyString)
           "Pastor not found" /\
  attendance c = extractAttendance (descendantTexts a) /\
  extractRanking index a = Num (ranking c).
Proof.
  unfold parseAnchor. rewrite scan_location_pastor. cbn [fst snd].
  destruct (extractRanking index a) as [|r]; [discriminate|].
  destruct (isEmpty (extractName a)); simpl; [discriminate|].
  destruct (r =? 0); simpl; [discriminate|].
  intros [= <-]. simpl. repeat split; reflexivity.
Qed.

(** X8.  The location of a record is the last text of its container's
    scan that reads as a location (letters and spaces, a comma, two or
    more capitals, under 50 characters once trimmed): every later match
    replaces the earlier one.  Without a match it is "Location not
    found". *)
Theorem location_last_match_wins (index : nat) (a : anchor) (c : church) :
  parseAnchor index a = Some c ->
  location c =
    orElse (last (locationCandidates (descendantTexts a)) EmptyString)
           "Location not found".
Proof. intros H. apply (parseAnchor_fields index a c H). Qed.

(** X9.  The pastor of a record is what the last text of the scan that
    proposes one proposes: a text with a hyphen, under 100 characters,
    proposes what follows its last hyphen, trimmed, when that is not
    empty, has no comma and is under 50 characters.  Without a proposal
    it is "Pastor not found". *)
Theorem pastor_last_match_wins (index : nat) (a : anchor) (c : church) :
  parseAnchor index a = Some c ->
  pastor c =
    orElse (last (pastorCandidates (descendantTexts a)) EmptyString)
           "Pastor not found".
Proof. intros H. apply (parseAnchor_fields index a c H). Qed.

Lemma location_last_match_wins_witness :
  location twoCitiesRecord =
    orElse (last (locationCandidates (descendantTexts twoCitiesAnchor))
              EmptyString)
           "Location not found".
Proof.
  apply (location_last_match_wins 0 twoCitiesAnchor twoCitiesRecord).
  reflexivity.
Defined.

Lemma pastor_last_match_wins_witness :
  pastor twoCitiesRecord =
    orElse (last (pastorCandidates (descendantTexts twoCitiesAnchor))
              EmptyString)
           "Pastor not found".
Proof.
  apply (pastor_last_match_wins 0 twoCitiesAnchor twoCitiesRecord).
  reflexivity.
Defined.

Lemma includes_trimStart (c : ascii) (s : string) :
  includes c s = false -> includes c (trimStart s) = false.
Proof.
  induction s as [|d s IH]; simpl; [auto|].
  intros H. apply orb_false_iff in H as [Hd Hs].
  destruct (isSpace d); [now apply IH|].
  simpl. now rewrite Hd, Hs.
Qed.

Lemma includes_trimEnd (c : ascii) (s : string) :
  includes c s = false -> includes c (trimEnd s) = false.
Proof.
  induction s as [|d s IH]; simpl; [auto|].
  intros H. apply orb_false_iff in H as [Hd Hs].
  destruct (isSpace d && isEmpty (trimEnd s)); [reflexivity|].
  simpl. now rewrite Hd, IH.
Qed.

Lemma includes_trim (c : ascii) (s : string) :
  includes c s = false -> includes c (trim s) = false.
Proof.
  intros H. unfold trim. now apply includes_trimEnd, includes_trimStart.
Qed.

(** What follows the last hyphen holds no hyphen. *)
Lemma lastPart_no_hyphen (s : string) : includes "-" (lastPart s) = false.
Proof.
  induction s as [|c s IH]; simpl; [reflexivity|].
  destruct (includes "-" s) eqn:Es.
  - rewrite andb_false_r. exact IH.
  - rewrite andb_true_r.
    destruct (Ascii.eqb c "-") eqn:Ec; [exact Es|].
    simpl. now rewrite Ec, Es.
Qed.

Lemma pastorOf_Some (text p : string) :
  pastorOf text = Some p ->
  isEmpty p = false /\ includes "," p = false /\
  includes "-" p = false /\ (String.length p < 50)%nat.
Proof.
  unfold pastorOf.
  destruct (includes "-" text && (String.length text <? 100)%nat);
    [|discriminate].
  destruct (isEmpty (trim (lastPart text))) eqn:Ee; simpl; [discriminate|].
  destruct (includes "," (trim (lastPart text))) eqn:Ec; simpl;
    [discriminate|].
  destruct (Nat.ltb_spec (String.length (trim (lastPart text))) 50);
    [|discriminate].
  intros [= <-]. repeat split; auto.
  apply includes_trim, lastPart_no_hyphen.
Qed.

Lemma pastorCandidates_In (texts : list string) (p : string) :
  In p (pastorCandidates texts) -> exists t, pastorOf t = Some p.
Proof.
  unfold pastorCandidates. intros Hin.
  apply in_flat_map in Hin as (t & _ & Hp).
  destruct (pastorOf (trim t)) as [q|] eqn:E; [|destruct Hp].
  destruct Hp as [<-|[]]. now exists (trim t).
Qed.

Lemma testLocation_not_empty (text : string) :
  testLocation text = true -> isEmpty text = false.
Proof. now destruct text. Qed.

Lemma extractAttendance_range (texts : list string) (n : Z) :
  extractAttendance texts = Some n -> 1000 <= n <= 100000.
Proof.
  rewrite extractAttendance_firstQualifying. intros Hn.
  apply firstQualifying_Some in Hn as (_ & t & _ & _ & _ & Ht).
  now apply qualifying_range in Ht.
Qed.

Lemma parseAnchor_wellFormed (index : nat) (a : anchor) (c : church) :
  parseAnchor index a = Some c -> wellFormedRecord c.
Proof.
  intros H.
  destruct (parseAnchor_fields index a c H)
    as (Hname & Hne & Hloc & Hpas & Hatt & Hrank).
  unfold wellFormedRecord. split; [congruence|]. split.
  { destruct (extractRanking_cases index a) as (r & Hr & Hcase).
    rewrite Hrank in Hr. injection Hr as <-. lia. }
  split.
  { rewrite Hloc. unfold orElse.
    destruct (last_default_or_member EmptyString
                (locationCandidates (descendantTexts a)))
      as [[_ ->]|Hin]; [now left|].
    unfold locationCandidates in Hin at 2.
    apply filter_In in Hin as [_ Hok]. unfold isLocationText in Hok.
    apply andb_true_iff in Hok as [Htest Hlen].
    rewrite (testLocation_not_empty _ Htest). right.
    split; [exact Htest | now apply Nat.ltb_lt]. }
  split.
  { rewrite Hpas. unfold orElse.
    destruct (last_default_or_member EmptyString
                (pastorCandidates (descendantTexts a)))
      as [[_ ->]|Hin]; [repeat split; simpl; lia|].
    apply pastorCandidates_In in Hin as (t & Ht).
    destruct (pastorOf_Some _ _ Ht) as (He & Hc & Hh & Hl).
    rewrite He. auto. }
  rewrite Hatt.
  destruct (extractAttendance (descendantTexts a)) as [n|] eqn:E;
    [right | now left].
  exists n. split; [reflexivity|]. now apply extractAttendance_range in E.
Qed.

Lemma extractor_records_well_formed_aux (page : html) (yr : jsnumber) :
  Forall wellFormedRecord (parseChurchesFromHTML page yr).
Proof.
  apply Forall_forall. intros c Hin.
  apply parseChurchesFromHTML_In in Hin as (index & a & _ & Hp).
  now apply (parseAnchor_wellFormed index a c).
Qed.

(** X10.  Every record the extractor emits is well formed: its name is
    not empty; its rank is at least 1; its location is "Location not
    found" or a text under 50 characters that reads as a location; its
    pastor is not empty, holds neither comma nor hyphen and is under 50
    characters ("Pastor not found" when no text proposed one); its
    attendance is null or a number in [1000, 100000]. *)
Theorem extractor_records_well_formed (page : html) (yr : jsnumber) :
  Forall wellFormedRecord (parseChurchesFromHTML page yr).
Proof.
  apply Forall_forall. intros c Hin.
  apply parseChurchesFromHTML_In in Hin as (index & a & _ & Hp).
  now apply (parseAnchor_wellFormed index a c).
Qed.

Lemma isRankText_parse (t : string) :
  isRankText t = true ->
  matchAllDigits t = Some t /\ num_le (parseInt t) 100 = true.
Proof.
  unfold isRankText.
  destruct (matchAllDigits t) as [m|] eqn:Em; [|discriminate].
  destruct (parseInt_digits t m Em) as [-> _]. auto.
Qed.

Lemma findRanking_first (before after : list string) (t : string) :
  (forall u, In u before -> isRankText u = false) ->
  isRankText t = true ->
  findRanking (before ++ t :: after) = Some (parseInt t).
Proof.
  intros Hbefore Ht.
  induction before as [|u before IH]; simpl.
  - destruct (isRankText_parse t Ht) as [-> ->]. reflexivity.
  - pose proof (Hbefore u (or_introl eq_refl)) as Hu.
    unfold isRankText in Hu.
    assert (IH' : findRanking (before ++ t :: after) = Some (parseInt t))
      by (apply IH; intros v Hv; apply Hbefore; now right).
    destruct (matchAllDigits u) as [m|]; [now rewrite Hu|exact IH'].
Qed.

(** X11.  The first of the three rank texts that is a pure integer at
    most 100 decides alone, the later ones are not looked at: its value
    is the rank when it is not zero, and when it is zero the rank is the
    anchor's 1-based position, even if a later text holds a usable
    rank. *)
Theorem first_rank_text_decides
    (index : nat) (a : anchor) (before after : list string) (t : string)
    (z : Z) :
  rankingSelectors a = before ++ t :: after ->
  (forall u, In u before -> isRankText u = false) ->
  isRankText t = true ->
  parseInt t = Num z ->
  extractRanking index a =
    Num (if z =? 0 then Z.of_nat index + 1 else z).
Proof.
  intros Hsel Hbefore Ht Hz. unfold extractRanking.
  rewrite Hsel, (findRanking_first before after t Hbefore Ht), Hz.
  simpl. now destruct (z =? 0).
Qed.

Lemma first_rank_text_decides_witness :
  extractRanking 2 zeroFirstAnchor = Num (Z.of_nat 2 + 1).
Proof.
  apply (first_rank_text_decides 2 zeroFirstAnchor []
           ["5"%string; EmptyString] "0" 0).
  - reflexivity.
  - intros u [].
  - reflexivity.
  - reflexivity.
Defined.

(* ================================================================== *)
(** * More on the page loop *)
(* ================================================================== *)

Section MoreRunFacts.
Variable fetch : url -> error + response.
Variable yr : jsnumber.

Lemma rejectedPage_no_records (p : nat) (e : error) :
  rejectedPage fetch yr p e ->
  pageChurchesOf fetch yr p = None /\ pageError fetch yr p = e.
Proof.
  unfold pageChurchesOf, pageError.
  intros [->|(r & -> & Hok & Htext)]; [now split|].
  now rewrite Hok, Htext.
Qed.

(** A run that reads a records list from page 1 returns. *)
Lemma run_returns_after_first_page (cs : list church) :
  pageChurchesOf fetch yr 1 = Some cs ->
  exists cs', fst (scrapeYearData fetch yr) = Return cs'.
Proof.
  intros Hfirst.
  destruct (run_outcome fetch yr scrapeFuel (Nat.le_refl _))
    as (j & k & _ & _ & _ & Hfull & Hres).
  change (scrapeYearData fetch yr)
    with (whileLoop fetch scrapeFuel yr (atPage 1 [] [])).
  destruct Hres as [->|[-> Hthrow]]; [now eexists|].
  exfalso.
  destruct cs as [|c cs].
  - rewrite (run_stops_at_empty fetch yr 0) in Hthrow;
      [discriminate | lia | intros q Hq; lia | exact Hfirst
      | unfold scrapeFuel; lia].
  - destruct (leading_full_pages fetch yr 10)
      as [Hall|(j & Hj & Hfullj & [Hempty|Hnone])].
    + rewrite (run_reaches_cap fetch yr) in Hthrow;
        [discriminate | exact Hall | unfold scrapeFuel; lia].
    + rewrite (run_stops_at_empty fetch yr j) in Hthrow;
        [discriminate | lia | exact Hfullj | exact Hempty
        | unfold scrapeFuel; lia].
    + destruct j as [|j]; [congruence|].
      rewrite (run_stops_at_failure fetch yr (S j)) in Hthrow;
        [discriminate | lia | exact Hfullj | exact Hnone
        | unfold scrapeFuel; lia].
Qed.

Lemma listingUrl_injective (p q : nat) :
  listingUrl yr p = listingUrl yr q -> p = q.
Proof.
  unfold listingUrl.
  destruct (Nat.eqb_spec p 1) as [->|Hp], (Nat.eqb_spec q 1) as [->|Hq];
    intros H; try reflexivity; try discriminate.
  now injection H.
Qed.

Lemma urlsUpTo_NoDup (k : nat) : NoDup (urlsUpTo yr k).
Proof.
  unfold urlsUpTo. generalize 1%nat.
  induction k as [|k IH]; intros s; simpl; constructor; [|apply IH].
  intros Hin. apply in_map_iff in Hin as (q & Hq & Hin).
  apply listingUrl_injective in Hq. subst q.
  apply in_seq in Hin. lia.
Qed.

Lemma recordsUpTo_wellFormed (j : nat) :
  Forall wellFormedRecord (recordsUpTo fetch yr j).
Proof.
  unfold recordsUpTo. apply Forall_forall. intros c Hin.
  apply in_flat_map in Hin as (p & _ & Hc).
  unfold recordsOf, pageChurchesOf in Hc.
  destruct (fetch (listingUrl yr p)) as [e|r]; [destruct Hc|].
  destruct (ok r); [|destruct Hc].
  destruct (text r) as [e|markup]; [destruct Hc|].
  pose proof (extractor_records_well_formed_aux markup yr) as Hall.
  rewrite Forall_forall in Hall. now apply Hall.
Qed.
End MoreRunFacts.

(** X12.  A rejection (of [fetch], or of reading the body of a response)
    is handled as a non-success status is: on page 1 the very error is
    thrown again, after that one request; on a later page, reached after
    full pages only, the loop ends and the records of the earlier pages
    are returned. *)
Theorem rejection_fatal_on_first_page_only
    (fetch : url -> error + response) (yr : jsnumber) (e : error) :
  (rejectedPage fetch yr 1 e ->
   scrapeYearData fetch yr = (Throw e, urlsUpTo yr 1)) /\
  (forall j,
     (0 < j < 10)%nat ->
     (forall q, (1 <= q <= j)%nat -> fullPage fetch yr q) ->
     rejectedPage fetch yr (S j) e ->
     scrapeYearData fetch yr =
       (Return (recordsUpTo fetch yr j), urlsUpTo yr (S j))).
Proof.
  split.
  - intros Hrej.
    destruct (rejectedPage_no_records fetch yr 1 e Hrej) as [Hnone <-].
    apply run_fails_on_first_page; [exact Hnone | unfold scrapeFuel; lia].
  - intros j Hj Hfull Hrej.
    destruct (rejectedPage_no_records fetch yr (S j) e Hrej) as [Hnone _].
    apply run_stops_at_failure; auto. unfold scrapeFuel. lia.
Qed.

Lemma twoPagesThenReset_full (yr : jsnumber) (q : nat) :
  (1 <= q <= 2)%nat -> fullPage twoPagesThenReset yr q.
Proof.
  intros Hq. assert (Hcase : q = 1%nat \/ q = 2%nat) by lia.
  destruct Hcase as [->| ->]; eexists; (split; [reflexivity|discriminate]).
Qed.

Lemma rejection_fatal_on_first_page_only_witness :
  scrapeYearData offline (Num 2020) =
    (Throw (Rejection "ECONNREFUSED"), urlsUpTo (Num 2020) 1) /\
  scrapeYearData twoPagesThenReset (Num 2020) =
    (Return (recordsUpTo twoPagesThenReset (Num 2020) 2),
     urlsUpTo (Num 2020) 3).
Proof.
  split.
  - apply (proj1 (rejection_fatal_on_first_page_only
                    offline (Num 2020) (Rejection "ECONNREFUSED"))).
    left. reflexivity.
  - apply (proj2 (rejection_fatal_on_first_page_only
                    twoPagesThenReset (Num 2020) (Rejection "ECONNRESET"))
             2%nat).
    + lia.
    + apply twoPagesThenReset_full.
    + left. reflexivity.
Defined.

(** X13.  When each of the first ten pages has records, the run returns
    the records of these ten pages and ends there: ten requests are made
    and page 11 is never asked for, whatever it holds. *)
Theorem ten_full_pages_reach_the_cap
    (fetch : url -> error + response) (yr : jsnumber) :
  (forall q, (1 <= q <= 10)%nat -> fullPage fetch yr q) ->
  scrapeYearData fetch yr =
    (Return (recordsUpTo fetch yr 10), urlsUpTo yr 10) /\
  ~ In (listingUrl yr 11) (snd (scrapeYearData fetch yr)).
Proof.
  intros Hfull.
  assert (Hrun : scrapeYearData fetch yr =
                 (Return (recordsUpTo fetch yr 10), urlsUpTo yr 10))
    by (apply run_reaches_cap; [exact Hfull | unfold scrapeFuel; lia]).
  split; [exact Hrun|]. rewrite Hrun. cbn [snd]. unfold urlsUpTo.
  intros Hin. apply in_map_iff in Hin as (q & Hq & Hin).
  apply listingUrl_injective in Hq. subst q. apply in_seq in Hin. lia.
Qed.

Lemma endlessPages_full (yr : jsnumber) (q : nat) :
  fullPage endlessPages yr q.
Proof. eexists. split; [reflexivity|discriminate]. Qed.

Lemma ten_full_pages_reach_the_cap_witness :
  scrapeYearData endlessPages (Num 2020) =
    (Return (recordsUpTo endlessPages (Num 2020) 10),
     urlsUpTo (Num 2020) 10) /\
  ~ In (listingUrl (Num 2020) 11)
       (snd (scrapeYearData endlessPages (Num 2020))).
Proof.
  apply (ten_full_pages_reach_the_cap endlessPages (Num 2020)).
  intros q _. apply endlessPages_full.
Defined.

(** X14.  [scrapeYearData] throws exactly when page 1 gives no records
    list (its request is rejected, its status is not a success, or its
    body cannot be read), and what it throws is the error of page 1: once
    page 1 has been read, nothing that happens on a later page makes the
    year fail. *)
Theorem throws_only_for_first_page
    (fetch : url -> error + response) (yr : jsnumber) (e : error) :
  fst (scrapeYearData fetch yr) = Throw e <->
  pageChurchesOf fetch yr 1 = None /\ e = pageError fetch yr 1.
Proof.
  split.
  - intros Hthrow.
    destruct (pageChurchesOf fetch yr 1) as [cs|] eqn:Hfirst.
    + destruct (run_returns_after_first_page fetch yr cs Hfirst) as (cs' & H).
      congruence.
    + split; [reflexivity|].
      assert (Hrun : scrapeYearData fetch yr =
                     (Throw (pageError fetch yr 1), urlsUpTo yr 1))
        by (apply run_fails_on_first_page;
            [exact Hfirst | unfold scrapeFuel; lia]).
      rewrite Hrun in Hthrow. simpl in Hthrow. congruence.
  - intros [Hnone ->].
    assert (Hrun : scrapeYearData fetch yr =
                   (Throw (pageError fetch yr 1), urlsUpTo yr 1))
      by (apply run_fails_on_first_page;
          [exact Hnone | unfold scrapeFuel; lia]).
    now rewrite Hrun.
Qed.

(** X15.  No URL is requested twice in a run, and every record a run
    returns is well formed, as the extractor's records are. *)
Theorem run_requests_once_and_returns_well_formed
    (fetch : url -> error + response) (yr : jsnumber) :
  NoDup (snd (scrapeYearData fetch yr)) /\
  returnsWellFormed (fst (scrapeYearData fetch yr)).
Proof.
  destruct (run_outcome fetch yr scrapeFuel (Nat.le_refl _))
    as (j & k & _ & _ & _ & _ & Hres).
  change (scrapeYearData fetch yr)
    with (whileLoop fetch scrapeFuel yr (atPage 1 [] [])).
  destruct Hres as [->|[_ ->]]; simpl; split;
    try apply urlsUpTo_NoDup; try exact I.
  apply recordsUpTo_wellFormed.
Qed.

(* ================================================================== *)
(** * The loop over the years *)
(* ================================================================== *)

Lemma Object_set_greatest (o : yearlyData) (k : Z) (v : list church) :
  (forall k', In k' (map fst o) -> k' < k) ->
  Object_set o k v = o ++ [(k, v)].
Proof.
  induction o as [|[k0 v0] o IH]; simpl; intros Hlt; [reflexivity|].
  assert (H0 : k0 < k) by (apply Hlt; now left).
  destruct (Z.eqb_spec k k0); [lia|].
  destruct (Z.ltb_spec k k0); [lia|].
  f_equal. apply IH. intros k' Hk'. apply Hlt. now right.
Qed.

(** The loop, for any outcomes of the single years. *)
Section OutcomeLoop.
Variable outcomeOf : Z -> completion * list url.

Let step (st : scrapeRun) (yr : Z) : scrapeRun :=
  storeOutcome (outcomeOf yr) st yr.
Let ret (yr : Z) : list (Z * list church) :=
  returnedOf (fst (outcomeOf yr)) yr.
Let thr (yr : Z) : list (Z * error) := thrownOf (fst (outcomeOf yr)) yr.

Lemma returned_keys (yr k : Z) : In k (map fst (ret yr)) -> k = yr.
Proof.
  unfold ret, returnedOf.
  destruct (fst (outcomeOf yr)); simpl; intuition.
Qed.

Lemma step_data (st : scrapeRun) (yr : Z) :
  (forall k, In k (map fst (allData st)) -> k < yr) ->
  allData (step st yr) = allData st ++ ret yr /\
  errors (step st yr) = errors st ++ thr yr.
Proof.
  intros Hlt. unfold step, ret, thr, storeOutcome.
  destruct (outcomeOf yr) as [[cs|e|] reqs]; simpl.
  - now rewrite Object_set_greatest, app_nil_r.
  - now rewrite app_nil_r.
  - now rewrite !app_nil_r.
Qed.

(** Years given in ascending order, from a state whose keys are below
    them. *)
Lemma fold_step (ys : list Z) :
  StronglySorted Z.lt ys ->
  forall st,
    (forall k y, In k (map fst (allData st)) -> In y ys -> k < y) ->
    allData (fold_left step ys st) = allData st ++ flat_map ret ys /\
    errors (fold_left step ys st) = errors st ++ flat_map thr ys.
Proof.
  induction 1 as [|y ys Hs IH Hall]; intros st Hlt.
  - cbn [fold_left flat_map]. rewrite !app_nil_r. split; reflexivity.
  - cbn [fold_left flat_map].
    destruct (step_data st y) as [Hd He].
    { intros k Hk. apply (Hlt k y Hk). now left. }
    assert (Hkeys : forall k y',
               In k (map fst (allData (step st y))) -> In y' ys -> k < y').
    { intros k y' Hk Hy'. rewrite Hd in Hk. rewrite map_app in Hk.
      apply in_app_iff in Hk. destruct Hk as [Hk|Hk].
      - apply (Hlt k y' Hk). now right.
      - apply returned_keys in Hk. subst k.
        rewrite Forall_forall in Hall. now apply Hall. }
    destruct (IH (step st y) Hkeys) as [Hd' He'].
    rewrite Hd', He', Hd, He.
    rewrite <- !app_assoc. split; reflexivity.
Qed.

Lemma returned_or_thrown (ys : list Z) :
  (forall y, fst (outcomeOf y) <> Unfinished) ->
  (List.length (flat_map ret ys) + List.length (flat_map thr ys))%nat =
  List.length ys.
Proof.
  intros Hfin. induction ys as [|y ys IH]; [reflexivity|].
  cbn [flat_map List.length]. rewrite !length_app.
  specialize (Hfin y). unfold ret at 1, thr at 1, returnedOf, thrownOf.
  destruct (fst (outcomeOf y)); cbn [List.length]; [lia|lia|congruence].
Qed.

Lemma Object_get_returned_sound (ys : list Z) (y : Z) (cs : list church) :
  Object_get (flat_map ret ys) y = Some cs ->
  In y ys /\ fst (outcomeOf y) = Return cs.
Proof.
  induction ys as [|y0 ys IH]; [discriminate|].
  cbn [flat_map]. unfold ret at 1, returnedOf.
  destruct (fst (outcomeOf y0)) as [cs0|e|] eqn:E0; cbn [app Object_get];
    try (intros H; destruct (IH H); split; [now right|assumption]).
  destruct (Z.eqb_spec y y0) as [->|Hne].
  - intros [= <-]. split; [now left|exact E0].
  - intros H; destruct (IH H); split; [now right|assumption].
Qed.

Lemma Object_get_returned_complete (ys : list Z) (y : Z) (cs : list church) :
  In y ys -> fst (outcomeOf y) = Return cs ->
  Object_get (flat_map ret ys) y = Some cs.
Proof.
  intros Hin Hret. induction ys as [|y0 ys IH]; [destruct Hin|].
  cbn [flat_map]. unfold ret at 1, returnedOf.
  destruct (Z.eq_dec y y0) as [->|Hne].
  - rewrite Hret. cbn [app Object_get]. now rewrite Z.eqb_refl.
  - assert (Hrest : Object_get (flat_map ret ys) y = Some cs)
      by (apply IH; destruct Hin as [Heq|Hin]; [congruence|exact Hin]).
    destruct (fst (outcomeOf y0)); cbn [app Object_get]; try exact Hrest.
    destruct (Z.eqb_spec y y0); [contradiction|exact Hrest].
Qed.

Lemma covered_years (ys : list Z) :
  filter (fun yr => match Object_get (flat_map ret ys) yr with
                    | Some cs => negb (List.length cs =? 0)%nat
                    | None => false
                    end) ys =
  filter (fun yr => returnsRecords (fst (outcomeOf yr))) ys.
Proof.
  apply filter_ext_in. intros y Hy.
  destruct (Object_get (flat_map ret ys) y) as [cs|] eqn:E.
  - apply Object_get_returned_sound in E as [_ ->]. now destruct cs.
  - destruct (fst (outcomeOf y)) as [cs|e|] eqn:Er; try reflexivity.
    rewrite (Object_get_returned_complete ys y cs Hy Er) in E.
    discriminate.
Qed.
End OutcomeLoop.

Lemma years_ascending : StronglySorted Z.lt years.
Proof.
  unfold years.
  repeat (constructor; [|repeat constructor; lia]). constructor.
Qed.

Section YearLoopFacts.
Variable fetch : url -> error + response.

Lemma scrape_finishes (yr : jsnumber) :
  fst (scrapeYearData fetch yr) <> Unfinished.
Proof.
  destruct (run_outcome fetch yr scrapeFuel (Nat.le_refl _))
    as (j & k & _ & _ & _ & _ & Hres).
  change (scrapeYearData fetch yr)
    with (whileLoop fetch scrapeFuel yr (atPage 1 [] [])).
  destruct Hres as [->|[_ ->]]; discriminate.
Qed.

Lemma scrape_returns_wellFormed (yr : jsnumber) (cs : list church) :
  fst (scrapeYearData fetch yr) = Return cs -> Forall wellFormedRecord cs.
Proof.
  destruct (run_outcome fetch yr scrapeFuel (Nat.le_refl _))
    as (j & k & _ & _ & _ & _ & Hres).
  change (scrapeYearData fetch yr)
    with (whileLoop fetch scrapeFuel yr (atPage 1 [] [])).
  destruct Hres as [->|[_ ->]]; cbn [fst]; [|discriminate].
  intros [= <-]. apply recordsUpTo_wellFormed.
Qed.

(** The three closed forms, first for any list of years in ascending
    order. *)
Lemma scrapeYears_closed_form (ys : list Z) :
  StronglySorted Z.lt ys ->
  allData (fold_left (scrapeOneYear fetch) ys (mkRun [] [] [])) =
    flat_map (returnedBy fetch) ys /\
  errors (fold_left (scrapeOneYear fetch) ys (mkRun [] [] [])) =
    flat_map (thrownBy fetch) ys.
Proof.
  intros Hs.
  apply (fold_step (fun y => scrapeYearData fetch (Num y))
           ys Hs (mkRun [] [] [])).
  intros k y [].
Qed.

Lemma scrapeAllYears_closed_form :
  allData (scrapeAllYears fetch) = flat_map (returnedBy fetch) years /\
  errors (scrapeAllYears fetch) = flat_map (thrownBy fetch) years.
Proof.
  unfold scrapeAllYears. generalize years_ascending. generalize years.
  exact scrapeYears_closed_form.
Qed.

Lemma stored_or_reported (ys : list Z) :
  (List.length (flat_map (returnedBy fetch) ys) +
   List.length (flat_map (thrownBy fetch) ys))%nat =
  List.length ys.
Proof.
  apply (returned_or_thrown (fun y => scrapeYearData fetch (Num y)) ys).
  intros y. apply scrape_finishes.
Qed.

Lemma covered_of_returned (ys : list Z) :
  filter (fun yr => match Object_get (flat_map (returnedBy fetch) ys) yr with
                    | Some cs => negb (List.length cs =? 0)%nat
                    | None => false
                    end) ys =
  filter (hasRecords fetch) ys.
Proof.
  apply (covered_years (fun y => scrapeYearData fetch (Num y)) ys).
Qed.

Lemma yearsCovered_closed_form :
  yearsCoveredBy (allData (scrapeAllYears fetch)) =
  filter (hasRecords fetch) years.
Proof.
  rewrite (proj1 scrapeAllYears_closed_form). unfold yearsCoveredBy.
  generalize years. exact covered_of_returned.
Qed.

Lemma allData_In (yr : Z) (cs : list church) :
  In (yr, cs) (allData (scrapeAllYears fetch)) <->
  In yr years /\ fst (scrapeYearData fetch (Num yr)) = Return cs.
Proof.
  rewrite (proj1 scrapeAllYears_closed_form), in_flat_map.
  unfold returnedBy, returnedOf. split.
  - intros (y & Hy & Hin).
    destruct (fst (scrapeYearData fetch (Num y))) as [cs0|e|] eqn:E;
      try destruct Hin.
    + injection H as <- <-. auto.
    + destruct H.
  - intros [Hy Hret]. exists yr. split; [exact Hy|].
    rewrite Hret. now left.
Qed.
End YearLoopFacts.

(** X16.  The loop scrapes each of the ten years, whatever happened to
    the years before it.  A year whose scrape returns is stored in
    [yearlyData] with exactly the records returned, the years in
    ascending order; a year whose scrape throws is listed in [errors]
    with the error thrown, in the order of the years; every year is in
    one of the two and in one only. *)
Theorem every_year_stored_or_reported (fetch : url -> error + response) :
  allData (scrapeAllYears fetch) = flat_map (returnedBy fetch) years /\
  errors (scrapeAllYears fetch) = flat_map (thrownBy fetch) years /\
  (List.length (allData (scrapeAllYears fetch)) +
   List.length (errors (scrapeAllYears fetch)))%nat = List.length years.
Proof.
  destruct (scrapeAllYears_closed_form fetch) as [Hd He].
  split; [exact Hd|]. split; [exact He|].
  rewrite Hd, He. apply stored_or_reported.
Qed.

Lemma hasRecords_false (fetch : url -> error + response) (yr : Z) :
  fst (scrapeYearData fetch (Num yr)) = Return [] ->
  hasRecords fetch yr = false.
Proof. intros H. unfold hasRecords. now rewrite H. Qed.

Lemma hasRecords_true (fetch : url -> error + response) (yr : Z)
    (c : church) (cs : list church) :
  fst (scrapeYearData fetch (Num yr)) = Return cs -> In c cs ->
  hasRecords fetch yr = true.
Proof.
  intros H Hc. unfold hasRecords. rewrite H.
  destruct cs as [|c0 cs]; [destruct Hc | reflexivity].
Qed.

(** Where the points of the output come from. *)
Lemma consolidate_point_origin (yd : yearlyData) (e : entity) (p : point) :
  In e (ServerJs.consolidateChurchData yd) -> In p (data e) ->
  exists yr cs c, In (yr, cs) yd /\ In c cs /\ p = pointOf yr c.
Proof.
  intros He Hp. destruct (consolidate_series yd e He) as [Hdata _].
  rewrite Hdata in Hp. apply Array_sort_In in Hp.
  unfold seriesOf in Hp. apply in_flat_map in Hp as ([yr cs] & Hentry & Hp).
  cbn [fst snd] in Hp. apply in_map_iff in Hp as (c & <- & Hc).
  apply filter_In in Hc as [Hc _]. now exists yr, cs, c.
Qed.

(** X17.  [yearsCovered] lists, in order, the years whose scrape
    returned at least one record.  A year that failed is not covered, and
    neither is a year whose first page had no record, though that year
    is in [yearlyData] with an empty list. *)
Theorem years_covered_have_records (fetch : url -> error + response) :
  yearsCoveredBy (allData (scrapeAllYears fetch)) =
    filter (hasRecords fetch) years /\
  forall yr,
    In yr years ->
    fst (scrapeYearData fetch (Num yr)) = Return [] ->
    In (yr, []) (allData (scrapeAllYears fetch)) /\
    ~ In yr (yearsCoveredBy (allData (scrapeAllYears fetch))).
Proof.
  split; [apply yearsCovered_closed_form|].
  intros yr Hin Hempty. split.
  - apply allData_In. split; assumption.
  - rewrite yearsCovered_closed_form. intros Hc.
    apply filter_In in Hc as [_ Hhas].
    rewrite (hasRecords_false fetch yr Hempty) in Hhas. discriminate.
Qed.

Lemma years_covered_have_records_witness :
  In (2016, []) (allData (scrapeAllYears twoPagesThenEmptyIn2016)) /\
  ~ In 2016 (yearsCoveredBy (allData (scrapeAllYears twoPagesThenEmptyIn2016))).
Proof.
  apply (proj2 (years_covered_have_records twoPagesThenEmptyIn2016) 2016).
  - vm_compute. tauto.
  - vm_compute. reflexivity.
Defined.

(** X18.  After a run, every point of every entity of
    [consolidateChurchData(allData)] comes from a covered year, has a
    rank of at least 1 and an attendance that is null or in
    [1000, 100000]: what the extractor guarantees of a record holds of
    the series built from the records. *)
Theorem report_points_sound (fetch : url -> error + response) :
  Forall (fun e =>
            Forall (soundPoint
                      (yearsCoveredBy (allData (scrapeAllYears fetch))))
                   (data e))
         (ServerJs.consolidateChurchData (allData (scrapeAllYears fetch))).
Proof.
  rewrite yearsCovered_closed_form.
  apply Forall_forall. intros e He. apply Forall_forall. intros p Hp.
  destruct (consolidate_point_origin _ e p He Hp)
    as (yr & cs & c & Hentry & Hc & ->).
  apply allData_In in Hentry as [Hyr Hret].
  pose proof (scrape_returns_wellFormed fetch (Num yr) cs Hret) as Hwf.
  rewrite Forall_forall in Hwf.
  destruct (Hwf c Hc) as (_ & Hrank & _ & _ & Hatt).
  split; [|split; [exact Hrank | exact Hatt]].
  apply filter_In. split; [exact Hyr|].
  exact (hasRecords_true fetch yr c cs Hret Hc).
Qed.

(* ================================================================== *)
(** * More on GET /api/scrape-year/:year *)
(* ================================================================== *)

Lemma to_int_not_nil (z : Z) :
  Z.to_int z <> Decimal.Pos Decimal.Nil /\
  Z.to_int z <> Decimal.Neg Decimal.Nil.
Proof.
  destruct z as [|p|p]; simpl; split; try discriminate;
    intros [= H]; now apply DecimalPos.Unsigned.to_uint_nonnil in H.
Qed.

(** The decimal writing of an integer tells the integer. *)
Lemma numberToString_injective (a b : jsnumber) :
  numberToString a = numberToString b -> a = b.
Proof.
  assert (Hnan : forall z, numberToString (Num z) <> "NaN"%string).
  { intros z H. simpl in H.
    assert (Hp : NilZero.int_of_string (NilZero.string_of_int (Z.to_int z))
                 = NilZero.int_of_string "NaN") by now rewrite H.
    destruct (to_int_not_nil z) as [Hpos Hneg].
    rewrite NilZero.isi in Hp by assumption. discriminate Hp. }
  destruct a as [|x], b as [|y]; intros H; try reflexivity.
  - symmetry in H. now apply Hnan in H.
  - now apply Hnan in H.
  - simpl in H. f_equal. apply DecimalZ.to_int_inj.
    assert (Hp : NilZero.int_of_string (NilZero.string_of_int (Z.to_int x))
                 = NilZero.int_of_string (NilZero.string_of_int (Z.to_int y)))
      by now rewrite H.
    destruct (to_int_not_nil x), (to_int_not_nil y).
    rewrite !NilZero.isi in Hp by assumption. now injection Hp.
Qed.

Lemma append_injective (pre s t : string) :
  String.append pre s = String.append pre t -> s = t.
Proof.
  induction pre as [|c pre IH]; simpl; [auto|].
  intros [= H]. now apply IH.
Qed.

(** Two years never share a cache key. *)
Lemma cacheKey_injective (a b : jsnumber) : cacheKey a = cacheKey b -> a = b.
Proof.
  unfold cacheKey. intros H.
  now apply numberToString_injective, (append_injective "year-").
Qed.

Section CacheFacts.
Variable fetch : url -> error + response.


(** What [scrapeAndCache] leaves in the cache and what it answers. *)
Lemma scrapeAndCache_cases (now : Z) (yr : jsnumber)
    (dataCache : JsMap cacheEntry) :
  (exists cs,
     fst (scrapeYearData fetch yr) = Return cs /\
     answerOf (scrapeAndCache fetch now yr dataCache) =
       mkYear 200 (YearData cs false now) /\
     cacheAfter (scrapeAndCache fetch now yr dataCache) =
       Map_set dataCache (cacheKey yr) (mkEntry cs now)) \/
  (churchesOf (answerOf (scrapeAndCache fetch now yr dataCache)) = None /\
   cacheAfter (scrapeAndCache fetch now yr dataCache) = dataCache).
Proof.
  unfold scrapeAndCache, answerOf, cacheAfter.
  destruct (scrapeYearData fetch yr) as [[cs|e|] reqs].
  - left. exists cs. repeat split; reflexivity.
  - right. split; reflexivity.
  - right. split; reflexivity.
Qed.

Lemma cacheSound_set (dataCache : JsMap cacheEntry) (yr : jsnumber)
    (cs : list church) (now : Z) :
  cacheSound fetch dataCache ->
  fst (scrapeYearData fetch yr) = Return cs ->
  cacheSound fetch (Map_set dataCache (cacheKey yr) (mkEntry cs now)).
Proof.
  intros Hsound Hret yr' entry Hget.
  destruct (String.eqb_spec (cacheKey yr') (cacheKey yr)) as [Heq|Hne].
  - apply cacheKey_injective in Heq. subst yr'.
    rewrite Map_get_set_same in Hget. injection Hget as <-. exact Hret.
  - rewrite Map_get_set_other in Hget by exact Hne. now apply Hsound.
Qed.
End CacheFacts.



(** X20.  As long as the network answers the same, the cache never holds
    anything but what a scrape returns: if every entry of the per-year
    cache holds the records a scrape of its year returns, then so does
    every entry after a request, and the churches a response carries,
    cached or fresh, are those a scrape of the requested year returns. *)
Theorem cached_answers_match_the_network
    (fetch : url -> error + response) (now : Z) (param : string)
    (dataCache : JsMap cacheEntry) :
  cacheSound fetch dataCache ->
  cacheSound fetch (cacheAfter (scrapeYearRoute fetch now param dataCache)) /\
  forall cs,
    churchesOf (answerOf (scrapeYearRoute fetch now param dataCache)) =
      Some cs ->
    fst (scrapeYearData fetch (parseInt param)) = Return cs.
Proof.
  intros Hsound. unfold scrapeYearRoute.
  destruct (num_lt (parseInt param) 2015 || num_gt (parseInt param) 2024).
  - split; [exact Hsound | discriminate].
  - unfold serveYear.
    destruct (Map_get dataCache (cacheKey (parseInt param)))
      as [cached|] eqn:Hget.
    + destruct (now - timestamp cached <? CACHE_DURATION).
      * split; [exact Hsound|]. intros cs [= <-]. now apply Hsound.
      * destruct (scrapeAndCache_cases fetch now (parseInt param) dataCache)
          as [(cs & Hret & Hans & Hcache)|[Hans Hcache]];
          rewrite Hcache; (split; [|rewrite Hans]).
        -- now apply cacheSound_set.
        -- now intros cs' [= <-].
        -- exact Hsound.
        -- discriminate.
    + destruct (scrapeAndCache_cases fetch now (parseInt param) dataCache)
        as [(cs & Hret & Hans & Hcache)|[Hans Hcache]];
        rewrite Hcache; (split; [|rewrite Hans]).
      * now apply cacheSound_set.
      * now intros cs' [= <-].
      * exact Hsound.
      * discriminate.
Qed.

Lemma empty_cache_sound (fetch : url -> error + response) :
  cacheSound fetch [].
Proof. intros yr entry H. discriminate H. Qed.

Lemma cached_answers_match_the_network_witness :
  cacheSound twoPagesThenEmpty
    (cacheAfter (scrapeYearRoute twoPagesThenEmpty 0 "2020" [])).
Proof.
  apply (proj1 (cached_answers_match_the_network twoPagesThenEmpty 0 "2020"
                  [] (empty_cache_sound twoPagesThenEmpty))).
Defined.

(** X21.  A request for one year leaves what the cache holds for every
    other year as it was. *)
Theorem other_years_stay_cached
    (fetch : url -> error + response) (now : Z) (param : string)
    (dataCache : JsMap cacheEntry) (other : jsnumber) :
  other <> parseInt param ->
  Map_get (cacheAfter (scrapeYearRoute fetch now param dataCache))
          (cacheKey other) =
  Map_get dataCache (cacheKey other).
Proof.
  intros Hother.
  assert (Hkey : cacheKey other <> cacheKey (parseInt param))
    by (intros H; now apply cacheKey_injective in H).
  unfold scrapeYearRoute.
  destruct (num_lt (parseInt param) 2015 || num_gt (parseInt param) 2024);
    [reflexivity|].
  unfold serveYear.
  assert (Hscrape :
            Map_get (cacheAfter
                       (scrapeAndCache fetch now (parseInt param) dataCache))
                    (cacheKey other) =
            Map_get dataCache (cacheKey other)).
  { destruct (scrapeAndCache_cases fetch now (parseInt param) dataCache)
      as [(cs & _ & _ & ->)|[_ ->]]; [|reflexivity].
    now apply Map_get_set_other. }
  destruct (Map_get dataCache (cacheKey (parseInt param))) as [cached|];
    [|exact Hscrape].
  destruct (now - timestamp cached <? CACHE_DURATION);
    [reflexivity | exact Hscrape].
Qed.

Lemma other_years_stay_cached_witness :
  Map_get (cacheAfter (scrapeYearRoute twoPagesThenEmpty 0 "2020" []))
          (cacheKey (Num 2021)) =
  Map_get [] (cacheKey (Num 2021)).
Proof.
  apply (other_years_stay_cached twoPagesThenEmpty 0 "2020" [] (Num 2021)).
  discriminate.
Defined.

(* ================================================================== *)
(** * More on [loadChurchData] and its two handlers *)
(* ================================================================== *)

(** X22.  Once the data file has been read and parsed to an object,
    [loadChurchData] keeps returning that object for the next minute
    without looking at the file, whatever has become of it; from one
    minute on the file is consulted again, and a file that is gone then
    gives null. *)
Theorem loaded_file_cached_for_a_minute
    (JSON_parse : string -> error + jsonValue)
    (fs : fileSystem) (now : Z) (c : loadCache)
    (fileContent : string) (p : payload) :
  cacheIsFresh now c = false ->
  accessResolves fs = true ->
  readFile fs = inr fileContent ->
  JSON_parse fileContent = inr (JTruthy p) ->
  now <> 0 ->
  let loaded := mkLoadCache (Some (JTruthy p)) (Some now) in
  loadChurchData JSON_parse fs now c = (Some (JTruthy p), loaded) /\
  (forall parse' fs' now',
      now' - now < 60000 ->
      loadChurchData parse' fs' now' loaded = (Some (JTruthy p), loaded)) /\
  (forall parse' fs' now',
      60000 <= now' - now -> accessResolves fs' = false ->
      loadChurchData parse' fs' now' loaded = (None, loaded)).
Proof.
  intros Hstale Hacc Hread Hparse Hnow loaded.
  assert (Hfresh : forall now', cacheIsFresh now' loaded = (now' - now <? 60000)).
  { intros now'. unfold cacheIsFresh, loaded. cbn [cachedData lastLoaded].
    destruct (Z.eqb_spec now 0); [contradiction | reflexivity]. }
  split; [|split].
  - unfold loadChurchData, loadTry.
    rewrite Hstale, Hacc, Hread, Hparse. reflexivity.
  - intros parse' fs' now' Hlt. unfold loadChurchData, loadTry.
    rewrite Hfresh. destruct (Z.ltb_spec (now' - now) 60000); [|lia].
    reflexivity.
  - intros parse' fs' now' Hge Hgone. unfold loadChurchData, loadTry.
    rewrite Hfresh. destruct (Z.ltb_spec (now' - now) 60000); [lia|].
    rewrite Hgone. reflexivity.
Qed.

Lemma loaded_file_cached_for_a_minute_witness :
  let loaded := mkLoadCache (Some (JTruthy savedPayload)) (Some 1000) in
  loadChurchData parseSaved savedFile 1000 nothingLoaded =
    (Some (JTruthy savedPayload), loaded) /\
  loadChurchData rejectAll missingFile 60999 loaded =
    (Some (JTruthy savedPayload), loaded) /\
  loadChurchData parseSaved missingFile 61000 loaded = (None, loaded).
Proof.
  destruct (loaded_file_cached_for_a_minute parseSaved savedFile 1000
              nothingLoaded "{ saved }"%string savedPayload)
    as (Hload & Hkeep & Hagain); try reflexivity.
  - discriminate.
  - split; [exact Hload|]. split.
    + apply Hkeep. vm_compute. reflexivity.
    + apply Hagain; [vm_compute; discriminate | reflexivity].
Defined.


